(** * tket2-py [tket2/circuit/build.py]: the sequential circuit builder

    A shallow embedding of [CircBuild], [Command] and [from_coms], together
    with a model of the graph engine they call into ([Dfg], [Node], [Wire],
    [CustomOp], [Tk2Circuit]), and the properties of the builder's
    index-to-wire bookkeeping. *)

From Stdlib Require Import ZArith List Lia.
From stdpp Require Import base decidable option list strings.

Open Scope Z_scope.

(** ** Python values *)

(** The exceptions that can escape the builder: [IndexError] from list
    indexing, [ValueError] from [max] of an empty list, and [BuildError]
    for anything the graph engine refuses. *)
Inductive PyError : Type :=
| IndexError
| ValueError
| BuildError.

Definition Result (A : Type) : Type := (PyError + A)%type.

(** Python list indexing: [l[i]] accepts [-len(l) <= i < len(l)], a
    negative [i] counting from the end.  [py_index] gives the position that
    is read or written, [None] standing for [IndexError]. *)
Definition py_index (len : nat) (i : Z) : option nat :=
  if 0 <=? i then
    (if i <? Z.of_nat len then Some (Z.to_nat i) else None)
  else
    (if - Z.of_nat len <=? i then Some (Z.to_nat (i + Z.of_nat len)) else None).

(** [l[i]] *)
Definition py_getitem {A : Type} (l : list A) (i : Z) : Result A :=
  match py_index (length l) i with
  | Some k => match l !! k with Some x => inr x | None => inl IndexError end
  | None => inl IndexError
  end.

(** [l[i] = x] *)
Definition py_setitem {A : Type} (l : list A) (i : Z) (x : A) : Result (list A) :=
  match py_index (length l) i with
  | Some k => inr (<[k := x]> l)
  | None => inl IndexError
  end.

(** [max(l)] on a list of ints; the empty list raises [ValueError]. *)
Definition py_max (l : list Z) : Result Z :=
  match l with
  | [] => inl ValueError
  | x :: l' => inr (fold_left Z.max l' x)
  end.

(** [[x] * n]: a negative count gives the empty list. *)
Definition py_repeat {A : Type} (x : A) (n : Z) : list A := repeat x (Z.to_nat n).

(** ** The graph engine ([tket2.circuit]) *)

Module HugrType.
Inductive t : Type := qubit | linear_bit | bool.

#[global] Instance eq_dec : EqDecision t.
Proof. solve_decision. Defined.
End HugrType.

Definition QB_T : HugrType.t := HugrType.qubit.
Definition LB_T : HugrType.t := HugrType.linear_bit.
Definition BOOL_T : HugrType.t := HugrType.bool.

(** [CustomOp(extension, name, input_types, output_types)] *)
Record CustomOp : Type := mkCustomOp {
  op_extension : string;
  op_name : string;
  input_types : list HugrType.t;
  output_types : list HugrType.t
}.

(** Modelled from the spec: the node handles of the graph engine.  A graph
    under construction has its input node and the operation nodes appended
    so far, the latter numbered in the order of their creation. *)
Inductive Node : Type :=
| InputNode
| OpNode (k : nat).

(** Modelled from the spec: a wire is the handle of one data-flow edge, the
    output port [wire_port] of the node [wire_node]. *)
Record Wire : Type := mkWire {
  wire_node : Node;
  wire_port : nat
}.

#[export] Instance Node_eq_dec : EqDecision Node.
Proof. solve_decision. Defined.

#[export] Instance Wire_eq_dec : EqDecision Wire.
Proof. solve_decision. Defined.

(** Modelled from the spec: [NodeOutputs(nodeHandle, count)], the method
    [Node.outs(count)]: the first [count] output wires of the node, in port
    order. *)
Definition outs (n : Node) (count : nat) : list Wire :=
  map (mkWire n) (seq 0 count).

(** Modelled from the spec: the graph under construction.  It keeps the
    signature declared at creation, the appended operations with the wires
    each one consumes, and whether it has been sealed (the Open and
    Finished phases of a session). *)
Record Dfg : Type := mkDfg {
  dfg_input_types : list HugrType.t;
  dfg_output_types : list HugrType.t;
  dfg_ops : list (CustomOp * list Wire);
  dfg_sealed : Datatypes.bool
}.

(** Modelled from the spec: the completed circuit value returned by
    [FinishGraph]. *)
Record Tk2Circuit : Type := mkTk2Circuit {
  circ_input_types : list HugrType.t;
  circ_output_types : list HugrType.t;
  circ_ops : list (CustomOp * list Wire);
  circ_outputs : list Wire
}.

(** Modelled from the spec: [CreateGraph(inputTypes, outputTypes)], the
    constructor [Dfg(input_types, output_types)]. *)
Definition Dfg_new (ins outs_ : list HugrType.t) : Dfg :=
  {| dfg_input_types := ins; dfg_output_types := outs_;
     dfg_ops := []; dfg_sealed := false |}.

(** Modelled from the spec: [GraphInputs(handle)], the method
    [Dfg.inputs()]: one wire per declared input, in order. *)
Definition Dfg_inputs (d : Dfg) : list Wire :=
  outs InputNode (length (dfg_input_types d)).

(** Modelled from the spec: [AppendOperation(handle, op, inputWires)], the
    method [Dfg.add_op(op, inputs)].  A sealed graph refuses the call;
    otherwise the node is appended and its handle returned. *)
Definition Dfg_add_op (d : Dfg) (op : CustomOp) (inputs : list Wire)
  : Result (Node * Dfg) :=
  if dfg_sealed d then inl BuildError
  else inr (OpNode (length (dfg_ops d)),
            {| dfg_input_types := dfg_input_types d;
               dfg_output_types := dfg_output_types d;
               dfg_ops := dfg_ops d ++ [(op, inputs)];
               dfg_sealed := false |}).

(** The type carried by a wire of the graph, when the wire exists. *)
Definition wire_type (d : Dfg) (w : Wire) : option HugrType.t :=
  match wire_node w with
  | InputNode => dfg_input_types d !! wire_port w
  | OpNode k =>
      match dfg_ops d !! k with
      | Some (op, _) => output_types op !! wire_port w
      | None => None
      end
  end.

(** Modelled from the spec: [FinishGraph(handle, outputWires)], the method
    [Dfg.finish(outputs)].  It fails on a sealed graph and when the types of
    the output wires are not the declared output types; otherwise it seals
    the graph and returns the circuit. *)
Definition Dfg_finish (d : Dfg) (outputs : list Wire) : Result (Tk2Circuit * Dfg) :=
  if dfg_sealed d then inl BuildError
  else if decide (map (wire_type d) outputs = map Some (dfg_output_types d)) then
    inr ({| circ_input_types := dfg_input_types d;
            circ_output_types := dfg_output_types d;
            circ_ops := dfg_ops d;
            circ_outputs := outputs |},
         {| dfg_input_types := dfg_input_types d;
            dfg_output_types := dfg_output_types d;
            dfg_ops := dfg_ops d;
            dfg_sealed := true |})
  else inl BuildError.

(** ** Commands *)

(** The [Command] protocol.  [gate_name], [n_qb], [n_lb] and
    [extension_name] are attributes of the command type; [qubits] and
    [bits] are methods of its values. *)
Class Command (C : Type) : Type := {
  gate_name : string;
  n_qb : Z;
  n_lb : Z;
  extension_name : string;
  qubits : C → list Z;
  bits : C → list Z
}.
Arguments gate_name C {_}.
Arguments n_qb C {_}.
Arguments n_lb C {_}.
Arguments extension_name C {_}.

(** The protocol's defaults. *)
Definition default_n_lb : Z := 0.
Definition default_extension_name : string := "quantum.tket2".
Definition default_bits {C : Type} (_ : C) : list Z := [].

(** The class method [Command.op]. *)
Definition op (C : Type) `{Command C} : CustomOp :=
  let types := py_repeat QB_T (n_qb C) ++ py_repeat LB_T (n_lb C) in
  mkCustomOp (extension_name C) (gate_name C) types types.

(** A value of some command type, as [extend] and [from_coms] receive it. *)
Record AnyCommand : Type := mkCommand {
  command_type : Type;
  command_class : Command command_type;
  command_self : command_type
}.
Arguments mkCommand {_ _} _.

Definition command_op (c : AnyCommand) : CustomOp :=
  @op (command_type c) (command_class c).
Definition command_qubits (c : AnyCommand) : list Z :=
  @qubits (command_type c) (command_class c) (command_self c).

(** ** The builder *)

Record CircBuild : Type := mkCircBuild {
  dfg : Dfg;
  qbs : list Wire
}.

(** A method of the builder: it runs on the current object, ends with a
    value or an exception, and leaves the object as mutated up to there. *)
Definition Build (A : Type) : Type := CircBuild → Result A * CircBuild.

Definition ret {A : Type} (x : A) : Build A := fun s => (inr x, s).

Definition raise {A : Type} (e : PyError) : Build A := fun s => (inl e, s).

Definition bind {A B : Type} (m : Build A) (k : A → Build B) : Build B :=
  fun s =>
    match m s with
    | (inr x, s') => k x s'
    | (inl e, s') => (inl e, s')
    end.

Declare Scope build_scope.
Delimit Scope build_scope with build.
Notation "x <- m ;; k" := (bind m (fun x => k))
  (at level 100, m at next level, right associativity) : build_scope.
Notation "m ;;; k" := (bind m (fun _ => k))
  (at level 100, right associativity) : build_scope.
Open Scope build_scope.

Definition lift {A : Type} (r : Result A) : Build A := fun s => (r, s).

(** A list comprehension [[f(x) for x in l]]. *)
Fixpoint comprehension {A B : Type} (f : A → Build B) (l : list A) : Build (list B) :=
  match l with
  | [] => ret []
  | x :: l' => y <- f x ;; ys <- comprehension f l' ;; ret (y :: ys)
  end.

(** A loop [for x in l: body(x)]. *)
Fixpoint for_each {A : Type} (l : list A) (body : A → Build unit) : Build unit :=
  match l with
  | [] => ret tt
  | x :: l' => body x ;;; for_each l' body
  end.

(** [zip(l, k)] *)
Fixpoint zip {A B : Type} (l : list A) (k : list B) : list (A * B) :=
  match l, k with
  | x :: l', y :: k' => (x, y) :: zip l' k'
  | _, _ => []
  end.

(** [self.qbs[i]] *)
Definition qbs_get (i : Z) : Build Wire :=
  fun s => (py_getitem (qbs s) i, s).

(** [self.qbs[i] = o] *)
Definition qbs_set (i : Z) (o : Wire) : Build unit :=
  fun s =>
    match py_setitem (qbs s) i o with
    | inr l => (inr tt, {| dfg := dfg s; qbs := l |})
    | inl e => (inl e, s)
    end.

(** [self.dfg.add_op(op, wires)] *)
Definition dfg_add_op (o : CustomOp) (wires : list Wire) : Build Node :=
  fun s =>
    match Dfg_add_op (dfg s) o wires with
    | inr (n, d) => (inr n, {| dfg := d; qbs := qbs s |})
    | inl e => (inl e, s)
    end.

(** [self.dfg.finish(self.qbs)] *)
Definition dfg_finish : Build Tk2Circuit :=
  fun s =>
    match Dfg_finish (dfg s) (qbs s) with
    | inr (c, d) => (inr c, {| dfg := d; qbs := qbs s |})
    | inl e => (inl e, s)
    end.

(** [CircBuild.__init__] *)
Definition CircBuild_init (n : Z) : CircBuild :=
  let d := Dfg_new (py_repeat QB_T n) (py_repeat QB_T n) in
  {| dfg := d; qbs := Dfg_inputs d |}.

(** [CircBuild.add] *)
Definition add (o : CustomOp) (indices : list Z) : Build Node :=
  wires <- comprehension qbs_get indices ;;
  n <- dfg_add_op o wires ;;
  let outs_ := outs n (length indices) in
  for_each (zip indices outs_) (fun '(i, w) => qbs_set i w) ;;;
  ret n.

(** The fixed operations without an (n qubits in, n qubits out) signature. *)
Definition QAlloc : CustomOp := mkCustomOp "quantum.tket2" "QAlloc" [] [QB_T].
Definition QFree : CustomOp := mkCustomOp "quantum.tket2" "QFree" [QB_T] [].
Definition Measure : CustomOp :=
  mkCustomOp "quantum.tket2" "Measure" [QB_T] [QB_T; BOOL_T].
Definition Not : CustomOp := mkCustomOp "logic" "Not" [BOOL_T] [BOOL_T].

(** [range(n)] *)
Definition range (n : nat) : list Z := map Z.of_nat (seq 0 n).

(** [CircBuild.measure_all] *)
Definition measure_all : Build (list Wire) :=
  fun s =>
    comprehension
      (fun i => n <- add Measure [i] ;; lift (py_getitem (outs n 2) 1))
      (range (length (qbs s))) s.

(** [CircBuild.add_command] *)
Definition add_command (command : AnyCommand) : Build Node :=
  add (command_op command) (command_qubits command).

(** [CircBuild.extend]; the builder it returns is the object itself. *)
Definition extend (coms : list AnyCommand) : Build unit :=
  for_each coms (fun c => add_command c ;;; ret tt).

(** [CircBuild.finish] *)
Definition finish : Build Tk2Circuit := dfg_finish.

(** The first loop of [from_coms]: the qubit count inferred from the
    commands, starting from [n_qb]. *)
Fixpoint from_coms_n_qb (args : list AnyCommand) (n_qb_ : Z) : Result Z :=
  match args with
  | [] => inr n_qb_
  | arg :: rest =>
      match py_max (command_qubits arg) with
      | inr m => from_coms_n_qb rest (Z.max n_qb_ (m + 1))
      | inl e => inl e
      end
  end.

(** [from_coms] *)
Definition from_coms (args : list AnyCommand) : Result Tk2Circuit :=
  match from_coms_n_qb args 0 with
  | inr n_qb_ =>
      let build := CircBuild_init n_qb_ in
      fst ((extend args ;;; finish) build)
  | inl e => inl e
  end.

(** ** The common gates *)

Record H : Type := mkH { H_qubit : Z }.
#[export] Instance H_Command : Command H := {|
  gate_name := "H"; n_qb := 1;
  n_lb := default_n_lb; extension_name := default_extension_name;
  qubits := fun self => [H_qubit self]; bits := default_bits |}.

Record CX : Type := mkCX { CX_control : Z; CX_target : Z }.
#[export] Instance CX_Command : Command CX := {|
  gate_name := "CX"; n_qb := 2;
  n_lb := default_n_lb; extension_name := default_extension_name;
  qubits := fun self => [CX_control self; CX_target self]; bits := default_bits |}.

Record PauliX : Type := mkPauliX { PauliX_qubit : Z }.
#[export] Instance PauliX_Command : Command PauliX := {|
  gate_name := "X"; n_qb := 1;
  n_lb := default_n_lb; extension_name := default_extension_name;
  qubits := fun self => [PauliX_qubit self]; bits := default_bits |}.

Record PauliZ : Type := mkPauliZ { PauliZ_qubit : Z }.
#[export] Instance PauliZ_Command : Command PauliZ := {|
  gate_name := "Z"; n_qb := 1;
  n_lb := default_n_lb; extension_name := default_extension_name;
  qubits := fun self => [PauliZ_qubit self]; bits := default_bits |}.

Record PauliY : Type := mkPauliY { PauliY_qubit : Z }.
#[export] Instance PauliY_Command : Command PauliY := {|
  gate_name := "Y"; n_qb := 1;
  n_lb := default_n_lb; extension_name := default_extension_name;
  qubits := fun self => [PauliY_qubit self]; bits := default_bits |}.

(** ** Auxiliary notions used to state the properties *)

(** The wires read by [[l[i] for i in indices]]. *)
Fixpoint py_getitems {A : Type} (l : list A) (indices : list Z) : Result (list A) :=
  match indices with
  | [] => inr []
  | i :: rest =>
      match py_getitem l i with
      | inr x =>
          match py_getitems l rest with
          | inr xs => inr (x :: xs)
          | inl e => inl e
          end
      | inl e => inl e
      end
  end.

(** The list after the writes [l[i] = x], done from left to right, at
    positions that are in range and not negative. *)
Definition write_all {A : Type} (l : list A) (iws : list (Z * A)) : list A :=
  fold_left (fun acc iw => <[Z.to_nat (fst iw) := snd iw]> acc) iws l.

(** The builder is in its Open phase. *)
Definition is_open (s : CircBuild) : Prop := dfg_sealed (dfg s) = false.

(** The index is a position of the table. *)
Definition in_bounds (s : CircBuild) (i : Z) : Prop :=
  0 <= i < Z.of_nat (length (qbs s)).

(** The graph of [s] with one more operation appended. *)
Definition dfg_appended (s : CircBuild) (o : CustomOp) (wires : list Wire) : Dfg :=
  {| dfg_input_types := dfg_input_types (dfg s);
     dfg_output_types := dfg_output_types (dfg s);
     dfg_ops := dfg_ops (dfg s) ++ [(o, wires)];
     dfg_sealed := false |}.

(** The handle that the next appended operation gets. *)
Definition next_node (s : CircBuild) : Node := OpNode (length (dfg_ops (dfg s))).

(** Every wire of the table leaves a node that the graph has. *)
Definition wire_live (d : Dfg) (w : Wire) : Datatypes.bool :=
  match wire_node w with
  | InputNode => true
  | OpNode k => Nat.ltb k (length (dfg_ops d))
  end.

Definition table_live (s : CircBuild) : Prop :=
  forallb (wire_live (dfg s)) (qbs s) = true.

(** The table wires carry the types declared for the graph's outputs. *)
Definition outputs_well_typed (s : CircBuild) : Prop :=
  map (wire_type (dfg s)) (qbs s) = map Some (dfg_output_types (dfg s)).

(** Two states of a builder with the same declared signature and as many
    table entries. *)
Definition same_shape (s s' : CircBuild) : Prop :=
  dfg_input_types (dfg s') = dfg_input_types (dfg s) ∧
  dfg_output_types (dfg s') = dfg_output_types (dfg s) ∧
  length (qbs s') = length (qbs s).

(** Every index that some command of the sequence refers to. *)
Definition referenced_indices (args : list AnyCommand) : list Z :=
  concat (map command_qubits args).

(** The index is one that Python accepts for a list of length [len]. *)
Definition valid_index (len : nat) (i : Z) : Prop :=
  - Z.of_nat len <= i < Z.of_nat len.

(** The same position, counted from the front of a list of length [len]. *)
Definition py_norm (len : nat) (i : Z) : Z :=
  if i <? 0 then i + Z.of_nat len else i.

(** [s'] has the declared signature and the table size of [s], and its
    graph has the nodes of [s], in their order, followed by new ones. *)
Definition grows (s s' : CircBuild) : Prop :=
  same_shape s s' ∧ ∃ new, dfg_ops (dfg s') = dfg_ops (dfg s) ++ new.

(** Every table entry is a wire of a node of the graph, and no wire is at
    two positions. *)
Definition table_inv (s : CircBuild) : Prop :=
  table_live s ∧ NoDup (qbs s).

(** Every table entry carries the qubit type in the graph. *)
Definition table_qubits (s : CircBuild) : Prop :=
  Forall (fun w => wire_type (dfg s) w = Some QB_T) (qbs s).

(** The [n_qb] attribute of a command's type. *)
Definition command_n_qb (c : AnyCommand) : Z :=
  @n_qb (command_type c) (command_class c).

(** A command type whose values name no qubit at all, for the runs at the
    end. *)
Record NoQubits : Type := mkNoQubits { }.
#[export] Instance NoQubits_Command : Command NoQubits := {|
  gate_name := "noop"; n_qb := 0;
  n_lb := default_n_lb; extension_name := default_extension_name;
  qubits := fun _ => []; bits := default_bits |}.

(** ** Python indexing *)

Lemma py_index_nonneg (len : nat) (i : Z) :
  0 <= i < Z.of_nat len → py_index len i = Some (Z.to_nat i).
Proof.
  intros Hi. unfold py_index.
  destruct (Z.leb_spec 0 i); [|lia].
  destruct (Z.ltb_spec i (Z.of_nat len)); [reflexivity|lia].
Qed.

Lemma py_index_negative (len : nat) (i : Z) :
  - Z.of_nat len <= i < 0 → py_index len i = Some (Z.to_nat (i + Z.of_nat len)).
Proof.
  intros Hi. unfold py_index.
  destruct (Z.leb_spec 0 i); [lia|].
  destruct (Z.leb_spec (- Z.of_nat len) i); [reflexivity|lia].
Qed.

Lemma py_index_None (len : nat) (i : Z) :
  py_index len i = None ↔ (Z.of_nat len <= i ∨ i < - Z.of_nat len).
Proof.
  unfold py_index.
  destruct (Z.leb_spec 0 i).
  - destruct (Z.ltb_spec i (Z.of_nat len)); split; intros Hc; try discriminate Hc; try reflexivity; lia.
  - destruct (Z.leb_spec (- Z.of_nat len) i); split; intros Hc; try discriminate Hc; try reflexivity; lia.
Qed.

Lemma py_index_lt (len : nat) (i : Z) (k : nat) :
  py_index len i = Some k → (k < len)%nat.
Proof.
  unfold py_index.
  destruct (Z.leb_spec 0 i).
  - destruct (Z.ltb_spec i (Z.of_nat len)); intros [= <-]; lia.
  - destruct (Z.leb_spec (- Z.of_nat len) i); intros [= <-]; lia.
Qed.

Section PyList.
Context {A : Type}.

Lemma py_getitem_None (l : list A) (i : Z) :
  py_index (length l) i = None → py_getitem l i = inl IndexError.
Proof. unfold py_getitem. intros ->. reflexivity. Qed.

Lemma py_getitem_Some (l : list A) (i : Z) (k : nat) :
  py_index (length l) i = Some k → ∃ x, l !! k = Some x ∧ py_getitem l i = inr x.
Proof.
  intros Hk. unfold py_getitem. rewrite Hk.
  destruct (lookup_lt_is_Some_2 l k (py_index_lt _ _ _ Hk)) as [x Hx].
  exists x. rewrite Hx. auto.
Qed.

Lemma py_getitem_error (l : list A) (i : Z) (e : PyError) :
  py_getitem l i = inl e → e = IndexError ∧ py_index (length l) i = None.
Proof.
  unfold py_getitem. destruct (py_index (length l) i) as [k|] eqn:Hk.
  - destruct (lookup_lt_is_Some_2 l k (py_index_lt _ _ _ Hk)) as [x Hx].
    rewrite Hx. discriminate.
  - intros [= <-]. auto.
Qed.

Lemma py_getitems_error (l : list A) (indices : list Z) (e : PyError) :
  py_getitems l indices = inl e → e = IndexError.
Proof.
  induction indices as [|i rest IH]; simpl; [discriminate|].
  destruct (py_getitem l i) eqn:Hi.
  - intros [= <-]. apply py_getitem_error in Hi. tauto.
  - destruct (py_getitems l rest); [|discriminate].
    intros [= <-]. auto.
Qed.

Lemma py_getitems_out_of_range (l : list A) (indices : list Z) (i : Z) :
  In i indices → py_index (length l) i = None →
  py_getitems l indices = inl IndexError.
Proof.
  intros Hin Hi. induction indices as [|j rest IH]; simpl; [destruct Hin|].
  destruct (py_getitem l j) eqn:Hj.
  - apply py_getitem_error in Hj. destruct Hj as [-> _]. reflexivity.
  - destruct Hin as [->|Hin].
    + rewrite (py_getitem_None _ _ Hi) in Hj. discriminate.
    + rewrite (IH Hin). reflexivity.
Qed.

Lemma py_getitems_in_bounds (l : list A) (indices : list Z) :
  Forall (fun i => 0 <= i < Z.of_nat (length l)) indices →
  ∃ xs, py_getitems l indices = inr xs ∧
        Forall2 (fun i x => l !! Z.to_nat i = Some x) indices xs.
Proof.
  induction 1 as [|i rest Hi _ IH]; simpl.
  - exists []. split; [reflexivity|constructor].
  - destruct IH as (xs & -> & Hxs).
    destruct (py_getitem_Some l i _ (py_index_nonneg _ _ Hi)) as (x & Hx & ->).
    exists (x :: xs). split; [reflexivity|]. constructor; assumption.
Qed.

End PyList.

(** ** Writes into the table *)

Lemma write_all_cons {A : Type} (l : list A) (iw : Z * A) (iws : list (Z * A)) :
  write_all l (iw :: iws) = write_all (<[Z.to_nat (fst iw) := snd iw]> l) iws.
Proof. reflexivity. Qed.

Lemma length_write_all {A : Type} (iws : list (Z * A)) (l : list A) :
  length (write_all l iws) = length l.
Proof.
  revert l. induction iws as [|iw iws IH]; intros l; [reflexivity|].
  rewrite write_all_cons, IH. apply length_insert.
Qed.

Lemma write_all_untouched {A : Type} (iws : list (Z * A)) (l : list A) (p : nat) :
  (∀ iw, In iw iws → Z.to_nat (fst iw) ≠ p) →
  write_all l iws !! p = l !! p.
Proof.
  revert l. induction iws as [|iw iws IH]; intros l Hp; [reflexivity|].
  rewrite write_all_cons, IH.
  - apply list_lookup_insert_ne. apply Hp. left. reflexivity.
  - intros iw' Hin. apply Hp. right. assumption.
Qed.

Lemma write_all_last {A : Type} (iws : list (Z * A)) (l : list A)
      (k : nat) (i : Z) (x : A) :
  iws !! k = Some (i, x) →
  (Z.to_nat i < length l)%nat →
  (∀ k' iw, (k < k')%nat → iws !! k' = Some iw → Z.to_nat (fst iw) ≠ Z.to_nat i) →
  write_all l iws !! Z.to_nat i = Some x.
Proof.
  revert l k. induction iws as [|iw iws IH]; intros l k Hk Hlen Hlast.
  - destruct k; discriminate.
  - rewrite write_all_cons. destruct k as [|k]; simpl in Hk.
    + injection Hk as ->. simpl.
      rewrite write_all_untouched.
      * apply list_lookup_insert_eq. assumption.
      * intros iw' Hin. apply list_elem_of_In, list_elem_of_lookup in Hin.
        destruct Hin as [k' Hk']. apply (Hlast (S k') iw'); [lia|exact Hk'].
    + apply (IH _ k); [exact Hk|rewrite length_insert; assumption|].
      intros k' iw' Hlt Hk'. apply (Hlast (S k') iw'); [lia|exact Hk'].
Qed.

Lemma zip_fst_In {A B : Type} (l : list A) (k : list B) (p : A * B) :
  In p (zip l k) → In (fst p) l.
Proof.
  revert k. induction l as [|x l IH]; intros [|y k] Hin; simpl in *; try tauto.
  destruct Hin as [<-|Hin]; [left; reflexivity|right; eapply IH; eassumption].
Qed.

Lemma zip_seq_lookup {A B : Type} (f : nat → B) (l : list A) (a k : nat) (x : A) :
  l !! k = Some x →
  zip l (map f (seq a (length l))) !! k = Some (x, f (a + k)%nat).
Proof.
  revert a k. induction l as [|y l IH]; intros a k Hk; [destruct k; discriminate|].
  destruct k as [|k]; simpl in *.
  - injection Hk as ->. rewrite Nat.add_0_r. reflexivity.
  - rewrite (IH (S a) k Hk). replace (S a + k)%nat with (a + S k)%nat by lia. reflexivity.
Qed.

Lemma zip_seq_lookup_inv {A B : Type} (f : nat → B) (l : list A) (a k : nat) (p : A * B) :
  zip l (map f (seq a (length l))) !! k = Some p → l !! k = Some (fst p).
Proof.
  revert a k. induction l as [|y l IH]; intros a k Hk; [destruct k; discriminate|].
  destruct k as [|k]; simpl in *.
  - injection Hk as <-. reflexivity.
  - exact (IH (S a) k Hk).
Qed.

Lemma zip_outs_lookup (indices : list Z) (n : Node) (k : nat) (i : Z) :
  indices !! k = Some i →
  zip indices (outs n (length indices)) !! k = Some (i, mkWire n k).
Proof. intros Hk. unfold outs. apply (zip_seq_lookup (mkWire n) indices 0 k i Hk). Qed.

(** ** The methods, step by step *)

Lemma state_eta (s : CircBuild) : {| dfg := dfg s; qbs := qbs s |} = s.
Proof. destruct s. reflexivity. Qed.

Lemma comprehension_qbs_get (indices : list Z) (s : CircBuild) :
  comprehension qbs_get indices s = (py_getitems (qbs s) indices, s).
Proof.
  induction indices as [|i rest IH]; [reflexivity|].
  simpl. unfold bind at 1. unfold qbs_get at 1.
  destruct (py_getitem (qbs s) i) as [e|x]; [reflexivity|].
  unfold bind at 1. rewrite IH.
  destruct (py_getitems (qbs s) rest); reflexivity.
Qed.

(** The first statement of [add]: look the wires up. *)
Ltac add_lookups :=
  unfold add; unfold bind at 1; rewrite comprehension_qbs_get.

Lemma for_each_qbs_set (iws : list (Z * Wire)) (s : CircBuild) :
  Forall (fun iw => 0 <= fst iw < Z.of_nat (length (qbs s))) iws →
  for_each iws (fun '(i, w) => qbs_set i w) s =
  (inr tt, {| dfg := dfg s; qbs := write_all (qbs s) iws |}).
Proof.
  revert s. induction iws as [|[i w] iws IH]; intros s Hall.
  - simpl. unfold ret. rewrite state_eta. reflexivity.
  - inversion Hall as [|? ? Hi Hrest]; subst. simpl in Hi.
    simpl. unfold bind, qbs_set at 1, py_setitem.
    rewrite (py_index_nonneg _ _ Hi).
    rewrite IH; simpl; [reflexivity|].
    rewrite length_insert. exact Hrest.
Qed.

Lemma add_in_bounds (o : CustomOp) (indices : list Z) (s : CircBuild) :
  is_open s → Forall (in_bounds s) indices →
  ∃ wires,
    py_getitems (qbs s) indices = inr wires ∧
    Forall2 (fun i w => qbs s !! Z.to_nat i = Some w) indices wires ∧
    add o indices s =
    (inr (next_node s),
     {| dfg := dfg_appended s o wires;
        qbs := write_all (qbs s) (zip indices (outs (next_node s) (length indices))) |}).
Proof.
  intros Hopen Hall.
  destruct (py_getitems_in_bounds (qbs s) indices Hall) as (wires & Hget & Hwires).
  exists wires. split; [exact Hget|]. split; [exact Hwires|].
  add_lookups. rewrite Hget.
  unfold bind at 1. unfold dfg_add_op, Dfg_add_op. rewrite Hopen.
  unfold bind. rewrite for_each_qbs_set; simpl.
  - reflexivity.
  - apply List.Forall_forall. intros iw Hin. apply zip_fst_In in Hin.
    rewrite List.Forall_forall in Hall. exact (Hall _ Hin).
Qed.

(** The table that [add] leaves, entry by entry. *)
Lemma in_bounds_lookup (s : CircBuild) (indices : list Z) (k : nat) (i : Z) :
  Forall (in_bounds s) indices → indices !! k = Some i → in_bounds s i.
Proof.
  intros Hall Hk. rewrite List.Forall_forall in Hall. apply Hall.
  apply list_elem_of_In, list_elem_of_lookup. eauto.
Qed.

Lemma add_table_last (s : CircBuild) (indices : list Z) (n : Node) (k : nat) (i : Z) :
  Forall (in_bounds s) indices →
  indices !! k = Some i →
  (∀ k', (k < k')%nat → indices !! k' ≠ Some i) →
  write_all (qbs s) (zip indices (outs n (length indices))) !! Z.to_nat i
  = Some (mkWire n k).
Proof.
  intros Hall Hk Hlater.
  pose proof (in_bounds_lookup s indices k i Hall Hk) as Hi.
  apply (write_all_last _ _ k);
    [apply zip_outs_lookup; exact Hk|unfold in_bounds in Hi; lia|].
  intros k' iw Hlt Hk' Heq.
  apply zip_seq_lookup_inv in Hk'.
  pose proof (in_bounds_lookup s indices k' (fst iw) Hall Hk') as Hi'.
  apply (Hlater k' Hlt). rewrite Hk'. f_equal.
  unfold in_bounds in Hi, Hi'. lia.
Qed.

Lemma add_table_untouched (s : CircBuild) (indices : list Z) (n : Node) (p : nat) :
  Forall (in_bounds s) indices →
  ¬ In (Z.of_nat p) indices →
  write_all (qbs s) (zip indices (outs n (length indices))) !! p = qbs s !! p.
Proof.
  intros Hall Hp. apply write_all_untouched.
  intros iw Hin Heq. apply zip_fst_In in Hin. apply Hp.
  assert (Hi : in_bounds s (fst iw)).
  { rewrite List.Forall_forall in Hall. apply Hall. exact Hin. }
  replace (Z.of_nat p) with (fst iw); [exact Hin|].
  unfold in_bounds in Hi. lia.
Qed.

(** ** [CircBuild.add] *)

(** C1.  On an open builder, for every index list whose entries are
    positions of the table, [add(op, indices)] reads the wires at those
    indices in order, appends [op] consuming exactly those wires, and then
    writes output [k] of the new node at position [i_k], for [k] from 0
    upwards in the order of the list.  So the table keeps its length, every
    position outside the list keeps its wire, a listed position holds output
    [k] for the last [k] that names it (for pairwise distinct indices, each
    position [i_k] holds output [k]), and the call returns the created node. *)
Theorem add_updates_table (o : CustomOp) (indices : list Z) (s : CircBuild) :
  is_open s →
  Forall (in_bounds s) indices →
  ∃ (n : Node) (wires : list Wire) (s' : CircBuild),
    add o indices s = (inr n, s') ∧
    Forall2 (fun i w => qbs s !! Z.to_nat i = Some w) indices wires ∧
    n = OpNode (length (dfg_ops (dfg s))) ∧
    dfg_ops (dfg s') = dfg_ops (dfg s) ++ [(o, wires)] ∧
    dfg_sealed (dfg s') = false ∧
    qbs s' = write_all (qbs s) (zip indices (outs n (length indices))) ∧
    (∀ (k : nat) (i : Z),
        indices !! k = Some i →
        (∀ k', (k < k')%nat → indices !! k' ≠ Some i) →
        qbs s' !! Z.to_nat i = Some (mkWire n k)) ∧
    (NoDup indices →
     ∀ (k : nat) (i : Z),
        indices !! k = Some i → qbs s' !! Z.to_nat i = Some (mkWire n k)) ∧
    (∀ p : nat, ¬ In (Z.of_nat p) indices → qbs s' !! p = qbs s !! p) ∧
    length (qbs s') = length (qbs s).
Proof.
  intros Hopen Hall.
  destruct (add_in_bounds o indices s Hopen Hall) as (wires & _ & Hwires & Hadd).
  eexists _, wires, _. split; [exact Hadd|]. simpl.
  repeat split; try reflexivity; try assumption.
  - intros k i Hk Hlater. apply add_table_last; assumption.
  - intros Hnodup k i Hk. apply add_table_last; [exact Hall|exact Hk|].
    intros k' Hlt Hk'. pose proof (NoDup_lookup _ _ _ _ Hnodup Hk Hk'). lia.
  - intros p Hp. apply add_table_untouched; assumption.
  - apply length_write_all.
Qed.

Lemma add_updates_table_witness :
  ∃ (n : Node) (wires : list Wire) (s' : CircBuild),
    add (op CX) [2; 0] (CircBuild_init 3) = (inr n, s') ∧
    wires = [mkWire InputNode 2; mkWire InputNode 0] ∧
    qbs s' = [mkWire n 1; mkWire InputNode 1; mkWire n 0].
Proof.
  assert (Hopen : is_open (CircBuild_init 3)) by reflexivity.
  assert (Hall : Forall (in_bounds (CircBuild_init 3)) [2; 0]).
  { repeat constructor; simpl; lia. }
  destruct (add_updates_table (op CX) [2; 0] (CircBuild_init 3) Hopen Hall)
    as (n & wires & s' & Hadd & Hwires & Hn & Hops & Hsealed & Hqbs & _).
  exists n, wires, s'. split; [exact Hadd|]. split.
  - inversion Hwires as [|? w0 ? l0 Hw0 Hrest]; subst.
    inversion Hrest as [|? w1 ? l1 Hw1 Hnil]; subst.
    inversion Hnil; subst.
    simpl in Hw0, Hw1. injection Hw0 as <-. injection Hw1 as <-. reflexivity.
  - rewrite Hqbs. reflexivity.
Defined.

(** ** [CircBuild.extend] *)

Lemma extend_nil (s : CircBuild) : extend [] s = (inr tt, s).
Proof. reflexivity. Qed.

Lemma extend_cons (c : AnyCommand) (coms : list AnyCommand) (s : CircBuild) :
  extend (c :: coms) s =
  match add_command c s with
  | (inr _, s') => extend coms s'
  | (inl e, s') => (inl e, s')
  end.
Proof.
  unfold extend. simpl. unfold bind, ret.
  destruct (add_command c s) as [[e|n] s']; reflexivity.
Qed.

Lemma Forall2_lookup_map {A B : Type} (g : A → option B) (f : A → B)
      (l : list A) (ys : list B) :
  Forall2 (fun x y => g x = Some y) l ys →
  (∀ x, In x l → g x = Some (f x)) →
  ys = map f l.
Proof.
  induction 1 as [|x y l ys Hxy _ IH]; intros Hf; [reflexivity|].
  simpl. f_equal.
  - specialize (Hf x (or_introl eq_refl)). congruence.
  - apply IH. intros x' Hin. apply Hf. right. exact Hin.
Qed.

Lemma wire_live_not_next (s : CircBuild) (w : Wire) (p : nat) :
  table_live s → In w (qbs s) → w ≠ mkWire (next_node s) p.
Proof.
  unfold table_live. rewrite forallb_forall. intros Hlive Hin ->.
  specialize (Hlive _ Hin). unfold wire_live, next_node in Hlive. simpl in Hlive.
  apply Nat.ltb_lt in Hlive. lia.
Qed.

Lemma forallb_insert {A : Type} (f : A → Datatypes.bool) (l : list A) (k : nat) (x : A) :
  f x = true → forallb f l = true → forallb f (<[k := x]> l) = true.
Proof.
  intros Hx. revert k. induction l as [|y l IH]; intros k Hl; [reflexivity|].
  simpl in Hl. apply andb_prop in Hl. destruct Hl as [Hy Hl].
  destruct k as [|k]; simpl.
  - rewrite Hx, Hl. reflexivity.
  - rewrite Hy. simpl. apply IH. exact Hl.
Qed.

Lemma CircBuild_init_live (n : Z) : table_live (CircBuild_init n).
Proof.
  unfold table_live. apply forallb_forall. intros w Hw.
  unfold CircBuild_init, Dfg_inputs, outs in Hw. simpl in Hw.
  apply in_map_iff in Hw. destruct Hw as (k & <- & _). reflexivity.
Qed.

Lemma for_each_qbs_set_live (iws : list (Z * Wire)) (s : CircBuild) :
  Forall (fun iw => wire_live (dfg s) (snd iw) = true) iws →
  table_live s →
  table_live (snd (for_each iws (fun '(i, w) => qbs_set i w) s)) ∧
  dfg (snd (for_each iws (fun '(i, w) => qbs_set i w) s)) = dfg s.
Proof.
  revert s. induction iws as [|[i w] iws IH]; intros s Hall Hlive; [split; [exact Hlive|reflexivity]|].
  inversion Hall as [|? ? Hw Hrest]; subst. simpl in Hw.
  simpl. unfold bind. unfold qbs_set at 1 3, py_setitem.
  destruct (py_index (length (qbs s)) i) as [k|]; simpl; [|split; [exact Hlive|reflexivity]].
  apply (IH {| dfg := dfg s; qbs := <[k := w]> (qbs s) |}); [exact Hrest|].
  unfold table_live. simpl. apply forallb_insert; assumption.
Qed.

(** Every state that a builder reaches from [CircBuild(n)] through [add]
    has a live table. *)
Lemma add_keeps_table_live (o : CustomOp) (indices : list Z) (s : CircBuild) :
  table_live s → table_live (snd (add o indices s)).
Proof.
  intros Hlive. add_lookups.
  destruct (py_getitems (qbs s) indices) as [e|wires]; [exact Hlive|].
  unfold bind at 1. unfold dfg_add_op, Dfg_add_op.
  destruct (dfg_sealed (dfg s)); [exact Hlive|].
  unfold bind.
  match goal with
  | |- context [for_each ?iws ?body ?s1] =>
      destruct (for_each_qbs_set_live iws s1) as [Hloop _];
      [| |destruct (for_each iws body s1) as [[e|[]] s2]; exact Hloop]
  end.
  - apply List.Forall_forall. intros [i w] Hin. simpl.
    assert (Hw : In w (outs (OpNode (length (dfg_ops (dfg s)))) (length indices))).
    { clear -Hin. revert Hin. generalize (outs (OpNode (length (dfg_ops (dfg s)))) (length indices)).
      induction indices as [|j indices IH]; intros [|y k] Hin; simpl in *; try tauto.
      destruct Hin as [[= _ <-]|Hin]; [left; reflexivity|right; exact (IH _ Hin)]. }
    unfold outs in Hw. apply in_map_iff in Hw. destruct Hw as (p & <- & _).
    unfold wire_live. simpl. rewrite length_app. simpl. apply Nat.ltb_lt. lia.
  - unfold table_live in *. simpl. rewrite forallb_forall in *.
    intros w Hw. specialize (Hlive w Hw). unfold wire_live in *. simpl.
    destruct (wire_node w) as [|k]; [reflexivity|].
    rewrite length_app. simpl. apply Nat.ltb_lt in Hlive. apply Nat.ltb_lt. lia.
Qed.

Lemma extend_keeps_table_live (coms : list AnyCommand) (s : CircBuild) :
  table_live s → table_live (snd (extend coms s)).
Proof.
  revert s. induction coms as [|c coms IH]; intros s Hlive; [exact Hlive|].
  rewrite extend_cons. unfold add_command.
  pose proof (add_keeps_table_live (command_op c) (command_qubits c) s Hlive) as Hstep.
  destruct (add (command_op c) (command_qubits c) s) as [[e|n] s1]; simpl in *;
    [exact Hstep|exact (IH s1 Hstep)].
Qed.

(** C2.  Take an open builder whose table has at least two entries, all of
    them wires of nodes the graph already has, a command [A] whose index
    list names only index 0 and a command [B] whose index list names only
    indices 0 and 1.  Then [extend([A, B])] succeeds and appends A's node
    and then B's node; B's node consumes, wherever its list names index 0,
    an output wire of A's node, which differs from the wire that the table
    held at index 0 before the call (for a fresh builder, the graph's input
    wire 0), and wherever it names index 1 the wire the table held there. *)
Theorem extend_threads_outputs (A B : AnyCommand) (s : CircBuild) :
  is_open s →
  table_live s →
  (2 <= length (qbs s))%nat →
  command_qubits A ≠ [] →
  Forall (fun i => i = 0) (command_qubits A) →
  Forall (fun i => i = 0 ∨ i = 1) (command_qubits B) →
  ∃ (s' : CircBuild) (w0 w1 wA : Wire),
    extend [A; B] s = (inr tt, s') ∧
    qbs s !! 0%nat = Some w0 ∧
    qbs s !! 1%nat = Some w1 ∧
    wire_node wA = OpNode (length (dfg_ops (dfg s))) ∧
    wA ≠ w0 ∧
    dfg_ops (dfg s') =
      dfg_ops (dfg s) ++
      [ (command_op A, map (fun _ => w0) (command_qubits A));
        (command_op B, map (fun i => if decide (i = 0) then wA else w1) (command_qubits B)) ].
Proof.
  intros Hopen Hlive Hlen HA_ne HA HB.
  destruct (lookup_lt_is_Some_2 (qbs s) 0) as [w0 Hw0]; [lia|].
  destruct (lookup_lt_is_Some_2 (qbs s) 1) as [w1 Hw1]; [lia|].
  assert (HallA : Forall (in_bounds s) (command_qubits A)).
  { eapply List.Forall_impl; [|exact HA]. intros i ->. unfold in_bounds. lia. }
  destruct (add_in_bounds (command_op A) _ s Hopen HallA)
    as (wiresA & _ & HwiresA & HaddA).
  set (nA := next_node s) in *.
  set (s1 := {| dfg := dfg_appended s (command_op A) wiresA;
                qbs := write_all (qbs s)
                         (zip (command_qubits A) (outs nA (length (command_qubits A)))) |})
    in *.
  assert (HlenA : length (qbs s1) = length (qbs s)) by apply length_write_all.
  (* the table after A: index 0 holds the last output of A's node *)
  set (m := (length (command_qubits A) - 1)%nat).
  assert (Hm : command_qubits A !! m = Some 0).
  { destruct (lookup_lt_is_Some_2 (command_qubits A) m) as [i Hi].
    - destruct (command_qubits A); [congruence|]. subst m. simpl. lia.
    - rewrite Hi. f_equal. rewrite List.Forall_forall in HA. apply HA.
      apply list_elem_of_In, list_elem_of_lookup. eauto. }
  assert (H0 : qbs s1 !! 0%nat = Some (mkWire nA m)).
  { apply (add_table_last s _ nA m 0 HallA Hm). intros k' Hlt Hk'.
    apply lookup_lt_Some in Hk'. subst m. lia. }
  assert (H1 : qbs s1 !! 1%nat = Some w1).
  { simpl. rewrite (add_table_untouched s _ nA 1 HallA); [exact Hw1|].
    intros Hin. rewrite List.Forall_forall in HA. specialize (HA _ Hin). lia. }
  assert (HallB : Forall (in_bounds s1) (command_qubits B)).
  { eapply List.Forall_impl; [|exact HB]. intros i Hi. unfold in_bounds. rewrite HlenA.
    simpl in Hi. lia. }
  destruct (add_in_bounds (command_op B) _ s1 eq_refl HallB)
    as (wiresB & _ & HwiresB & HaddB).
  eexists _, w0, w1, (mkWire nA m).
  split.
  { rewrite extend_cons. unfold add_command at 1. rewrite HaddA.
    rewrite extend_cons. unfold add_command at 1. rewrite HaddB.
    apply extend_nil. }
  split; [exact Hw0|]. split; [exact Hw1|]. split; [reflexivity|].
  split.
  { intros Heq.
    apply (wire_live_not_next s w0 m Hlive); [|symmetry; exact Heq].
    apply list_elem_of_In, list_elem_of_lookup. eauto. }
  simpl. rewrite <- app_assoc. simpl. do 3 f_equal.
  - f_equal. apply (Forall2_lookup_map (fun i => qbs s !! Z.to_nat i)); [exact HwiresA|].
    intros i Hin. rewrite List.Forall_forall in HA. rewrite (HA _ Hin). exact Hw0.
  - f_equal. f_equal.
    apply (Forall2_lookup_map (fun i => qbs s1 !! Z.to_nat i)); [exact HwiresB|].
    intros i Hin. rewrite List.Forall_forall in HB.
    destruct (HB _ Hin) as [-> | ->]; assumption.
Qed.

Lemma extend_threads_outputs_witness :
  ∃ (s' : CircBuild) (w0 w1 wA : Wire),
    extend [mkCommand (mkH 0); mkCommand (mkCX 0 1)] (CircBuild_init 2) = (inr tt, s') ∧
    qbs (CircBuild_init 2) !! 0%nat = Some w0 ∧
    qbs (CircBuild_init 2) !! 1%nat = Some w1 ∧
    wire_node wA = OpNode 0 ∧
    wA ≠ w0 ∧
    dfg_ops (dfg s') =
      [ (op H, map (fun _ => w0) [0]);
        (op CX, map (fun i => if decide (i = 0) then wA else w1) [0; 1]) ].
Proof.
  assert (Hopen : is_open (CircBuild_init 2)) by reflexivity.
  assert (Hlive : table_live (CircBuild_init 2)) by reflexivity.
  assert (Hlen : (2 <= length (qbs (CircBuild_init 2)))%nat) by (simpl; lia).
  assert (HA_ne : command_qubits (mkCommand (mkH 0)) ≠ []) by discriminate.
  assert (HA : Forall (fun i => i = 0) (command_qubits (mkCommand (mkH 0))))
    by repeat constructor.
  assert (HB : Forall (fun i => i = 0 ∨ i = 1) (command_qubits (mkCommand (mkCX 0 1))))
    by (repeat constructor; auto).
  exact (extend_threads_outputs (mkCommand (mkH 0)) (mkCommand (mkCX 0 1))
           (CircBuild_init 2) Hopen Hlive Hlen HA_ne HA HB).
Defined.

(** ** [CircBuild.__init__] *)

Lemma length_outs (n : Node) (count : nat) : length (outs n count) = count.
Proof. unfold outs. rewrite length_map, length_seq. reflexivity. Qed.

Lemma lookup_outs (n : Node) (count i : nat) :
  (i < count)%nat → outs n count !! i = Some (mkWire n i).
Proof.
  intros Hi. unfold outs. rewrite list_lookup_fmap, lookup_seq_lt by exact Hi.
  reflexivity.
Qed.

Lemma lookup_repeat {A : Type} (x : A) (n i : nat) :
  (i < n)%nat → repeat x n !! i = Some x.
Proof.
  revert i. induction n as [|n IH]; intros i Hi; [lia|].
  destruct i as [|i]; simpl; [reflexivity|]. apply IH. lia.
Qed.

(** C3.  For every qubit count [n >= 0], [CircBuild(n)] creates a graph
    declared with [n] qubit inputs and [n] qubit outputs, with no operation
    yet and open, and its table is the list of the graph's input wires: it
    has length [n] and entry [i] is input wire [i]. *)
Theorem CircBuild_init_table (n : Z) :
  0 <= n →
  dfg_input_types (dfg (CircBuild_init n)) = repeat QB_T (Z.to_nat n) ∧
  dfg_output_types (dfg (CircBuild_init n)) = repeat QB_T (Z.to_nat n) ∧
  Z.of_nat (length (dfg_input_types (dfg (CircBuild_init n)))) = n ∧
  Z.of_nat (length (dfg_output_types (dfg (CircBuild_init n)))) = n ∧
  dfg_ops (dfg (CircBuild_init n)) = [] ∧
  is_open (CircBuild_init n) ∧
  qbs (CircBuild_init n) = Dfg_inputs (dfg (CircBuild_init n)) ∧
  Z.of_nat (length (qbs (CircBuild_init n))) = n ∧
  (∀ i : Z, 0 <= i < n →
     qbs (CircBuild_init n) !! Z.to_nat i = Some (mkWire InputNode (Z.to_nat i)) ∧
     wire_type (dfg (CircBuild_init n)) (mkWire InputNode (Z.to_nat i)) = Some QB_T).
Proof.
  intros Hn. unfold CircBuild_init, Dfg_inputs, Dfg_new, py_repeat, is_open. simpl.
  rewrite length_outs, !repeat_length.
  repeat split; try reflexivity; try lia.
  - apply lookup_outs. lia.
  - unfold wire_type. simpl. apply lookup_repeat. lia.
Qed.

Lemma CircBuild_init_table_witness :
  dfg_input_types (dfg (CircBuild_init 3)) = [QB_T; QB_T; QB_T] ∧
  dfg_output_types (dfg (CircBuild_init 3)) = [QB_T; QB_T; QB_T] ∧
  qbs (CircBuild_init 3) = [mkWire InputNode 0; mkWire InputNode 1; mkWire InputNode 2].
Proof.
  assert (H3 : 0 <= 3) by lia.
  destruct (CircBuild_init_table 3 H3) as (Hin & Hout & _).
  split; [exact Hin|]. split; [exact Hout|]. reflexivity.
Defined.

(** ** [CircBuild.measure_all] *)

(** One turn of the comprehension: measure the qubit at position [i]. *)
Lemma measure_step (s : CircBuild) (i : nat) (w : Wire) :
  is_open s → qbs s !! i = Some w →
  (n <- add Measure [Z.of_nat i] ;; lift (py_getitem (outs n 2) 1)) s =
  (inr (mkWire (next_node s) 1),
   {| dfg := dfg_appended s Measure [w];
      qbs := <[i := mkWire (next_node s) 0]> (qbs s) |}).
Proof.
  intros Hopen Hw.
  assert (Hall : Forall (in_bounds s) [Z.of_nat i]).
  { constructor; [|constructor]. apply lookup_lt_Some in Hw. unfold in_bounds. lia. }
  destruct (add_in_bounds Measure _ s Hopen Hall) as (wires & _ & Hwires & Hadd).
  inversion Hwires as [|? w' ? l' Hw' Hnil]; subst. inversion Hnil; subst.
  rewrite Nat2Z.id in Hw'. assert (w' = w) by congruence. subst w'.
  unfold bind. rewrite Hadd. unfold write_all. simpl. rewrite Nat2Z.id. reflexivity.
Qed.

Lemma measure_loop (post : list Wire) :
  ∀ (pre : list Wire) (s : CircBuild),
    is_open s → qbs s = pre ++ post →
    ∃ s',
      comprehension
        (fun i => n <- add Measure [i] ;; lift (py_getitem (outs n 2) 1))
        (map Z.of_nat (seq (length pre) (length post))) s =
      (inr (map (fun k => mkWire (OpNode (length (dfg_ops (dfg s)) + k)) 1)
                (seq 0 (length post))), s') ∧
      qbs s' = pre ++ map (fun k => mkWire (OpNode (length (dfg_ops (dfg s)) + k)) 0)
                          (seq 0 (length post)) ∧
      dfg_ops (dfg s') = dfg_ops (dfg s) ++ map (fun w => (Measure, [w])) post ∧
      dfg_input_types (dfg s') = dfg_input_types (dfg s) ∧
      dfg_output_types (dfg s') = dfg_output_types (dfg s) ∧
      is_open s'.
Proof.
  induction post as [|w post IH]; intros pre s Hopen Hqbs.
  - exists s. simpl. rewrite !app_nil_r. rewrite app_nil_r in Hqbs. unfold ret.
    repeat split; assumption.
  - assert (Hw : qbs s !! length pre = Some w).
    { rewrite Hqbs. apply list_lookup_middle. reflexivity. }
    set (s1 := {| dfg := dfg_appended s Measure [w];
                  qbs := <[length pre := mkWire (next_node s) 0]> (qbs s) |}).
    assert (Hqbs1 : qbs s1 = (pre ++ [mkWire (next_node s) 0]) ++ post).
    { simpl. rewrite Hqbs, <- app_assoc. simpl.
      rewrite insert_app_r_alt by lia. rewrite Nat.sub_diag. reflexivity. }
    destruct (IH _ s1 eq_refl Hqbs1) as (s' & Hrun & Hq & Hops & Hin & Hout & Hopen').
    exists s'. repeat split; try assumption.
    + change (map Z.of_nat (seq (length pre) (length (w :: post))))
        with (Z.of_nat (length pre) :: map Z.of_nat (seq (S (length pre)) (length post))).
      cbn [comprehension]. unfold bind at 1.
      rewrite (measure_step s (length pre) w Hopen Hw). fold s1.
      replace (S (length pre)) with (length (pre ++ [mkWire (next_node s) 0]))
        by (rewrite length_app; simpl; lia).
      unfold bind at 1. rewrite Hrun. unfold ret. simpl.
      rewrite length_app. simpl. rewrite Nat.add_0_r.
      rewrite <- seq_shift, map_map. do 3 f_equal.
      apply map_ext. intros k. do 2 f_equal. lia.
    + rewrite Hq. simpl. rewrite length_app, <- app_assoc. simpl.
      rewrite Nat.add_0_r. unfold next_node.
      rewrite <- seq_shift, map_map. do 2 f_equal.
      apply map_ext. intros k. do 2 f_equal. lia.
    + rewrite Hops. simpl. rewrite <- app_assoc. reflexivity.
Qed.

(** C5.  On an open builder whose table has [n] entries, [measure_all()]
    appends one [Measure] operation (one qubit in, a qubit and a bit out)
    per position, in index order, the one for position [i] consuming the
    wire that the table held at [i].  It returns [n] wires, the [i]-th being
    the second (bit) output of the [i]-th measure node; table entry [i]
    becomes the first (qubit) output of that node, and none of the returned
    wires is stored in the table. *)
Theorem measure_all_returns_bits (s : CircBuild) :
  is_open s →
  ∃ (results : list Wire) (s' : CircBuild),
    measure_all s = (inr results, s') ∧
    length results = length (qbs s) ∧
    length (qbs s') = length (qbs s) ∧
    dfg_ops (dfg s') = dfg_ops (dfg s) ++ map (fun w => (Measure, [w])) (qbs s) ∧
    (∀ (i : nat) (w : Wire),
        qbs s !! i = Some w →
        dfg_ops (dfg s') !! (length (dfg_ops (dfg s)) + i)%nat = Some (Measure, [w]) ∧
        results !! i = Some (mkWire (OpNode (length (dfg_ops (dfg s)) + i)) 1) ∧
        qbs s' !! i = Some (mkWire (OpNode (length (dfg_ops (dfg s)) + i)) 0) ∧
        wire_type (dfg s') (mkWire (OpNode (length (dfg_ops (dfg s)) + i)) 1) = Some BOOL_T ∧
        wire_type (dfg s') (mkWire (OpNode (length (dfg_ops (dfg s)) + i)) 0) = Some QB_T) ∧
    (∀ w : Wire, In w results → ¬ In w (qbs s')).
Proof.
  intros Hopen.
  destruct (measure_loop (qbs s) [] s Hopen eq_refl)
    as (s' & Hrun & Hq & Hops & _ & _ & _).
  simpl in Hrun, Hq.
  eexists _, s'. split; [exact Hrun|].
  split; [rewrite length_map, length_seq; reflexivity|].
  split; [rewrite Hq, length_map, length_seq; reflexivity|].
  split; [exact Hops|]. split.
  - intros i w Hw. pose proof (lookup_lt_Some _ _ _ Hw) as Hi.
    assert (Hnode : dfg_ops (dfg s') !! (length (dfg_ops (dfg s)) + i)%nat
                    = Some (Measure, [w])).
    { rewrite Hops, lookup_app_r by lia.
      replace (length (dfg_ops (dfg s)) + i - length (dfg_ops (dfg s)))%nat with i by lia.
      rewrite list_lookup_fmap, Hw. reflexivity. }
    split; [exact Hnode|].
    split; [rewrite list_lookup_fmap, lookup_seq_lt by exact Hi; reflexivity|].
    split; [rewrite Hq, list_lookup_fmap, lookup_seq_lt by exact Hi; reflexivity|].
    unfold wire_type. simpl. rewrite Hnode. split; reflexivity.
  - intros w Hres Htab. rewrite Hq in Htab.
    apply in_map_iff in Hres. destruct Hres as (k & <- & _).
    apply in_map_iff in Htab. destruct Htab as (k' & Heq & _).
    discriminate.
Qed.

Lemma measure_all_returns_bits_witness :
  ∃ (results : list Wire) (s' : CircBuild),
    measure_all (CircBuild_init 2) = (inr results, s') ∧
    results = [mkWire (OpNode 0) 1; mkWire (OpNode 1) 1] ∧
    qbs s' = [mkWire (OpNode 0) 0; mkWire (OpNode 1) 0].
Proof.
  assert (Hopen : is_open (CircBuild_init 2)) by reflexivity.
  destruct (measure_all_returns_bits (CircBuild_init 2) Hopen)
    as (results & s' & Hrun & _).
  exists results, s'. split; [exact Hrun|].
  vm_compute in Hrun. injection Hrun as <- <-. split; reflexivity.
Defined.

(** ** Faults of [add] *)

Lemma add_lookup_fault (o : CustomOp) (indices : list Z) (s : CircBuild) (e : PyError) :
  py_getitems (qbs s) indices = inl e → add o indices s = (inl e, s).
Proof.
  intros Hget. add_lookups. rewrite Hget. reflexivity.
Qed.

(** C6.  Whatever the state of the builder, if a command names an index that
    is at least the size of the table, appending it raises [IndexError] and
    leaves the builder as it was: the graph has no new node and the table is
    unchanged, the lookup failing before [add_op] is reached. *)
Theorem add_command_out_of_range (c : AnyCommand) (s : CircBuild) (i : Z) :
  In i (command_qubits c) →
  Z.of_nat (length (qbs s)) <= i →
  add_command c s = (inl IndexError, s).
Proof.
  intros Hin Hi. unfold add_command. apply add_lookup_fault.
  apply (py_getitems_out_of_range _ _ i Hin).
  apply py_index_None. left. exact Hi.
Qed.

Lemma add_command_out_of_range_witness :
  In 2 (command_qubits (mkCommand (mkCX 0 2))) ∧
  Z.of_nat (length (qbs (CircBuild_init 2))) <= 2 ∧
  add_command (mkCommand (mkCX 0 2)) (CircBuild_init 2) =
  (inl IndexError, CircBuild_init 2).
Proof.
  assert (Hin : In 2 (command_qubits (mkCommand (mkCX 0 2)))) by (simpl; auto).
  assert (Hi : Z.of_nat (length (qbs (CircBuild_init 2))) <= 2) by (simpl; lia).
  split; [exact Hin|]. split; [exact Hi|].
  exact (add_command_out_of_range (mkCommand (mkCX 0 2)) (CircBuild_init 2) 2 Hin Hi).
Defined.

(** C9.  On an open builder whose table has [n] entries, [add] with a single
    index [i], [-n <= i < 0], does not fault: it reads the wire at position
    [n + i] and overwrites that position with the node's first output,
    exactly as [add] with the index [n + i] does.  For a single index [j],
    [IndexError] is raised exactly when [j >= n] or [j < -n]. *)
Theorem add_negative_index_aliases (o : CustomOp) (s : CircBuild) (i : Z) :
  is_open s →
  - Z.of_nat (length (qbs s)) <= i < 0 →
  (∃ w : Wire,
      qbs s !! Z.to_nat (Z.of_nat (length (qbs s)) + i) = Some w ∧
      add o [i] s =
      (inr (next_node s),
       {| dfg := dfg_appended s o [w];
          qbs := <[Z.to_nat (Z.of_nat (length (qbs s)) + i) := mkWire (next_node s) 0]>
                   (qbs s) |})) ∧
  add o [i] s = add o [Z.of_nat (length (qbs s)) + i] s ∧
  (∀ j : Z,
      fst (add o [j] s) = inl IndexError ↔
      (Z.of_nat (length (qbs s)) <= j ∨ j < - Z.of_nat (length (qbs s)))).
Proof.
  intros Hopen Hi.
  assert (Hrun : ∀ (j : Z) (k : nat),
             py_index (length (qbs s)) j = Some k →
             ∃ w, qbs s !! k = Some w ∧
                  add o [j] s =
                  (inr (next_node s),
                   {| dfg := dfg_appended s o [w];
                      qbs := <[k := mkWire (next_node s) 0]> (qbs s) |})).
  { intros j k Hk.
    destruct (py_getitem_Some (qbs s) j k Hk) as (w & Hw & Hget).
    exists w. split; [exact Hw|].
    add_lookups. simpl.
    rewrite Hget. unfold bind at 1. unfold dfg_add_op, Dfg_add_op. rewrite Hopen.
    unfold bind. simpl. unfold qbs_set, py_setitem. simpl. rewrite Hk. reflexivity. }
  split; [|split].
  - destruct (Hrun i _ (py_index_negative _ _ Hi)) as (w & Hw & Hadd).
    exists w. rewrite Z.add_comm. split; assumption.
  - destruct (Hrun i _ (py_index_negative _ _ Hi)) as (w & Hw & Hadd).
    assert (Hpos : 0 <= Z.of_nat (length (qbs s)) + i < Z.of_nat (length (qbs s))) by lia.
    destruct (Hrun _ _ (py_index_nonneg _ _ Hpos)) as (w' & Hw' & Hadd').
    rewrite Z.add_comm in Hw'. rewrite Hw in Hw'. injection Hw' as <-.
    rewrite Hadd, Hadd'. rewrite (Z.add_comm i). reflexivity.
  - intros j. rewrite <- py_index_None.
    destruct (py_index (length (qbs s)) j) as [k|] eqn:Hk.
    + destruct (Hrun j k Hk) as (w & _ & ->). simpl. split; discriminate.
    + rewrite (add_lookup_fault o [j] s IndexError); [simpl; tauto|].
      simpl. rewrite (py_getitem_None _ _ Hk). reflexivity.
Qed.

Lemma add_negative_index_aliases_witness :
  add (op H) [-1] (CircBuild_init 2) = add (op H) [1] (CircBuild_init 2) ∧
  add (op H) [-1] (CircBuild_init 2) =
  (inr (OpNode 0),
   {| dfg := dfg_appended (CircBuild_init 2) (op H) [mkWire InputNode 1];
      qbs := [mkWire InputNode 0; mkWire (OpNode 0) 0] |}).
Proof.
  assert (Hopen : is_open (CircBuild_init 2)) by reflexivity.
  assert (Hi : - Z.of_nat (length (qbs (CircBuild_init 2))) <= -1 < 0) by (simpl; lia).
  destruct (add_negative_index_aliases (op H) (CircBuild_init 2) (-1) Hopen Hi)
    as (_ & Halias & _).
  split; [exact Halias|]. reflexivity.
Defined.

(** ** [Command.op] and [CircBuild.add_command] *)

(** C7.  For every command type, the descriptor built by [op()] has the
    type's [gate_name] as name and its [extension_name] as namespace, its
    input types are [n_qb] qubit types followed by [n_lb] linear-bit types,
    and its output types are its input types.  [add_command(c)] is [add] of
    this descriptor at the indices [c.qubits()]: on an open builder, with
    those indices in the table's range, it appends one node carrying exactly
    this descriptor, consuming the wires that the table held at those
    indices, in order, writes the node's outputs back at those indices and
    returns the node; with an index outside the range nothing is
    appended. *)
Theorem Command_op_descriptor (C : Type) `{Command C} :
  op_name (op C) = gate_name C ∧
  op_extension (op C) = extension_name C ∧
  input_types (op C) =
    repeat QB_T (Z.to_nat (n_qb C)) ++ repeat LB_T (Z.to_nat (n_lb C)) ∧
  length (input_types (op C)) = (Z.to_nat (n_qb C) + Z.to_nat (n_lb C))%nat ∧
  output_types (op C) = input_types (op C) ∧
  (∀ (c : C) (s : CircBuild),
      command_op (mkCommand c) = op C ∧
      command_qubits (mkCommand c) = qubits c ∧
      add_command (mkCommand c) s = add (op C) (qubits c) s) ∧
  (∀ (c : C) (s : CircBuild),
      is_open s →
      Forall (in_bounds s) (qubits c) →
      ∃ (n : Node) (wires : list Wire) (s' : CircBuild),
        add_command (mkCommand c) s = (inr n, s') ∧
        n = OpNode (length (dfg_ops (dfg s))) ∧
        Forall2 (fun i w => qbs s !! Z.to_nat i = Some w) (qubits c) wires ∧
        dfg_ops (dfg s') =
          dfg_ops (dfg s) ++
          [(mkCustomOp (extension_name C) (gate_name C)
              (repeat QB_T (Z.to_nat (n_qb C)) ++ repeat LB_T (Z.to_nat (n_lb C)))
              (repeat QB_T (Z.to_nat (n_qb C)) ++ repeat LB_T (Z.to_nat (n_lb C))),
            wires)] ∧
        dfg_input_types (dfg s') = dfg_input_types (dfg s) ∧
        dfg_output_types (dfg s') = dfg_output_types (dfg s) ∧
        qbs s' = write_all (qbs s) (zip (qubits c) (outs n (length (qubits c))))) ∧
  (∀ (c : C) (s : CircBuild) (i : Z),
      In i (qubits c) →
      ¬ valid_index (length (qbs s)) i →
      add_command (mkCommand c) s = (inl IndexError, s)).
Proof.
  split; [reflexivity|]. split; [reflexivity|]. split; [reflexivity|].
  split; [unfold op, py_repeat; simpl; rewrite length_app, !repeat_length; reflexivity|].
  split; [reflexivity|]. split; [intros c s; repeat split|]. split.
  - intros c s Hopen Hall. unfold add_command.
    change (command_qubits (mkCommand c)) with (qubits c).
    change (command_op (mkCommand c)) with (op C).
    destruct (add_in_bounds (op C) (qubits c) s Hopen Hall) as (wires & _ & Hwires & Hadd).
    eexists _, wires, _. split; [exact Hadd|]. repeat split. exact Hwires.
  - intros c s i Hin Hbad. unfold add_command. apply add_lookup_fault.
    apply (py_getitems_out_of_range _ _ i Hin).
    apply py_index_None. unfold valid_index in Hbad. lia.
Qed.

Lemma Command_op_descriptor_witness :
  ∃ s' : CircBuild,
    add_command (mkCommand (mkCX 1 0)) (CircBuild_init 2) = (inr (OpNode 0), s') ∧
    dfg_ops (dfg s') =
      [(mkCustomOp "quantum.tket2" "CX" [QB_T; QB_T] [QB_T; QB_T],
        [mkWire InputNode 1; mkWire InputNode 0])] ∧
    qbs s' = [mkWire (OpNode 0) 1; mkWire (OpNode 0) 0].
Proof.
  destruct (Command_op_descriptor CX) as (_ & _ & _ & _ & _ & _ & Happend & _).
  assert (Hopen : is_open (CircBuild_init 2)) by reflexivity.
  assert (Hall : Forall (in_bounds (CircBuild_init 2)) (qubits (mkCX 1 0))).
  { repeat constructor; simpl; lia. }
  destruct (Happend (mkCX 1 0) (CircBuild_init 2) Hopen Hall)
    as (n & wires & s' & Hadd & -> & _).
  exists s'. split; [exact Hadd|].
  vm_compute in Hadd. injection Hadd as <-. split; reflexivity.
Defined.

Example op_H : op H = mkCustomOp "quantum.tket2" "H" [QB_T] [QB_T].
Proof. reflexivity. Qed.

Example op_CX : op CX = mkCustomOp "quantum.tket2" "CX" [QB_T; QB_T] [QB_T; QB_T].
Proof. reflexivity. Qed.

Example op_PauliX : op PauliX = mkCustomOp "quantum.tket2" "X" [QB_T] [QB_T].
Proof. reflexivity. Qed.

(** ** [CircBuild.finish] *)





(** ** What no method changes: the declared signature and the table size *)

Lemma same_shape_refl (s : CircBuild) : same_shape s s.
Proof. repeat split. Qed.

Lemma same_shape_trans (s1 s2 s3 : CircBuild) :
  same_shape s1 s2 → same_shape s2 s3 → same_shape s1 s3.
Proof. unfold same_shape. intros (-> & -> & ->) (-> & -> & ->). repeat split. Qed.

Lemma qbs_set_shape (i : Z) (w : Wire) (s : CircBuild) :
  same_shape s (snd (qbs_set i w s)).
Proof.
  unfold qbs_set, py_setitem.
  destruct (py_index (length (qbs s)) i); simpl; [|apply same_shape_refl].
  repeat split. simpl. apply length_insert.
Qed.

Lemma for_each_qbs_set_shape (iws : list (Z * Wire)) (s : CircBuild) :
  same_shape s (snd (for_each iws (fun '(i, w) => qbs_set i w) s)).
Proof.
  revert s. induction iws as [|[i w] iws IH]; intros s; [apply same_shape_refl|].
  simpl. unfold bind.
  pose proof (qbs_set_shape i w s) as Hstep.
  destruct (qbs_set i w s) as [[e|[]] s1]; simpl in *; [exact Hstep|].
  exact (same_shape_trans _ _ _ Hstep (IH s1)).
Qed.

Lemma add_shape (o : CustomOp) (indices : list Z) (s : CircBuild) :
  same_shape s (snd (add o indices s)).
Proof.
  add_lookups.
  destruct (py_getitems (qbs s) indices) as [e|wires]; [apply same_shape_refl|].
  unfold bind at 1. unfold dfg_add_op, Dfg_add_op.
  destruct (dfg_sealed (dfg s)); [apply same_shape_refl|].
  unfold bind.
  match goal with
  | |- context [for_each ?iws ?body ?s1] =>
      pose proof (for_each_qbs_set_shape iws s1) as Hloop;
      destruct (for_each iws body s1) as [[e|[]] s2]
  end; simpl in *; exact Hloop.
Qed.

Lemma extend_shape (coms : list AnyCommand) (s : CircBuild) :
  same_shape s (snd (extend coms s)).
Proof.
  revert s. induction coms as [|c coms IH]; intros s; [apply same_shape_refl|].
  rewrite extend_cons. unfold add_command.
  pose proof (add_shape (command_op c) (command_qubits c) s) as Hstep.
  destruct (add (command_op c) (command_qubits c) s) as [[e|n] s1]; simpl in *;
    [exact Hstep|].
  exact (same_shape_trans _ _ _ Hstep (IH s1)).
Qed.

Lemma finish_circuit (s s' : CircBuild) (c : Tk2Circuit) :
  finish s = (inr c, s') →
  circ_input_types c = dfg_input_types (dfg s) ∧
  circ_output_types c = dfg_output_types (dfg s) ∧
  circ_ops c = dfg_ops (dfg s) ∧
  circ_outputs c = qbs s.
Proof.
  unfold finish, dfg_finish, Dfg_finish.
  destruct (dfg_sealed (dfg s)); [discriminate|].
  destruct (decide _); [|discriminate].
  intros [= <- <-]. repeat split.
Qed.

(** ** [from_coms] *)

Lemma fold_left_max_spec (l : list Z) (x : Z) :
  (fold_left Z.max l x = x ∨ In (fold_left Z.max l x) l) ∧
  x <= fold_left Z.max l x ∧
  (∀ y, In y l → y <= fold_left Z.max l x).
Proof.
  revert x. induction l as [|a l IH]; intros x; simpl.
  - split; [left; reflexivity|]. split; [lia|]. intros y [].
  - destruct (IH (Z.max x a)) as (Hin & Hle & Hall).
    split; [|split].
    + destruct Hin as [Heq|Hin]; [|right; right; exact Hin].
      rewrite Heq. destruct (Z.max_spec x a) as [[_ ->]|[_ ->]]; auto.
    + lia.
    + intros y [<-|Hy]; [lia|exact (Hall y Hy)].
Qed.

Lemma py_max_spec (l : list Z) :
  l ≠ [] →
  ∃ m, py_max l = inr m ∧ In m l ∧ (∀ y, In y l → y <= m).
Proof.
  destruct l as [|x l]; [congruence|]. intros _.
  destruct (fold_left_max_spec l x) as (Hin & Hle & Hall).
  exists (fold_left Z.max l x). split; [reflexivity|]. split.
  - destruct Hin as [->|Hin]; [left; reflexivity|right; exact Hin].
  - intros y [<-|Hy]; [exact Hle|exact (Hall y Hy)].
Qed.

Lemma from_coms_n_qb_spec (args : list AnyCommand) (acc : Z) :
  Forall (fun c => command_qubits c ≠ []) args →
  ∃ r, from_coms_n_qb args acc = inr r ∧
       acc <= r ∧
       (∀ i, In i (referenced_indices args) → i + 1 <= r) ∧
       (r = acc ∨ ∃ i, In i (referenced_indices args) ∧ r = i + 1).
Proof.
  intros Hne. revert acc. induction Hne as [|c rest Hc _ IH]; intros acc.
  - exists acc. split; [reflexivity|]. split; [lia|]. split; [intros i []|left; reflexivity].
  - destruct (py_max_spec _ Hc) as (m & Hmax & Hin & Hall).
    destruct (IH (Z.max acc (m + 1))) as (r & Hr & Hle & Hub & Hwit).
    exists r. simpl. rewrite Hmax. split; [exact Hr|]. split; [lia|].
    unfold referenced_indices in *. simpl. split.
    + intros i Hi. apply in_app_iff in Hi. destruct Hi as [Hi|Hi].
      * specialize (Hall i Hi). lia.
      * exact (Hub i Hi).
    + destruct Hwit as [Heq|(i & Hi & Heq)].
      * destruct (Z.max_spec acc (m + 1)) as [[_ Hm]|[_ Hm]].
        -- right. exists m. split; [apply in_app_iff; left; exact Hin|lia].
        -- left. lia.
      * right. exists i. split; [apply in_app_iff; right; exact Hi|exact Heq].
Qed.

(** With a single command that names only index -3, the qubit count that
    [from_coms] computes is 0: the scan starts from 0 and takes maxima, so
    it is not the largest named index plus one, which would be -2. *)
Lemma from_coms_qubit_count_counterexample :
  [mkCommand (mkH (-3))] ≠ [] ∧
  Forall (fun c => command_qubits c ≠ []) [mkCommand (mkH (-3))] ∧
  from_coms_n_qb [mkCommand (mkH (-3))] 0 = inr 0 ∧
  ¬ (∃ m : Z,
        In m (referenced_indices [mkCommand (mkH (-3))]) ∧
        (∀ i, In i (referenced_indices [mkCommand (mkH (-3))]) → i <= m) ∧
        from_coms_n_qb [mkCommand (mkH (-3))] 0 = inr (m + 1)).
Proof.
  split; [discriminate|]. split; [repeat constructor; discriminate|].
  split; [reflexivity|].
  intros (m & Hin & _ & Hn). simpl in Hin. destruct Hin as [<-|[]].
  vm_compute in Hn. discriminate.
Qed.

Lemma CircBuild_init_max (x : Z) : CircBuild_init (Z.max 0 x) = CircBuild_init x.
Proof.
  unfold CircBuild_init, py_repeat.
  replace (Z.to_nat (Z.max 0 x)) with (Z.to_nat x) by lia. reflexivity.
Qed.

(** C4 (amended).  For every non-empty sequence of commands, each naming at
    least one qubit index, [from_coms] takes as qubit count the larger of 0
    and the largest index named by any command plus one: the count starts
    from 0 and never goes below it, so it is the largest index plus one as
    soon as that index is at least -1, in particular when some named index
    is not negative.  It then returns what a [CircBuild] of that size (the
    same builder as one of size the largest index plus one, a negative size
    giving no qubit) gives when it is extended with the commands in order
    and finished; a circuit it returns has that many qubit inputs, qubit
    outputs and output wires. *)
Theorem from_coms_qubit_count (args : list AnyCommand) :
  args ≠ [] →
  Forall (fun c => command_qubits c ≠ []) args →
  ∃ m : Z,
    In m (referenced_indices args) ∧
    (∀ i, In i (referenced_indices args) → i <= m) ∧
    from_coms_n_qb args 0 = inr (Z.max 0 (m + 1)) ∧
    (-1 <= m → from_coms_n_qb args 0 = inr (m + 1)) ∧
    from_coms args
    = fst ((extend args ;;; finish) (CircBuild_init (Z.max 0 (m + 1)))) ∧
    CircBuild_init (Z.max 0 (m + 1)) = CircBuild_init (m + 1) ∧
    (∀ c : Tk2Circuit,
        from_coms args = inr c →
        circ_input_types c = repeat QB_T (Z.to_nat (Z.max 0 (m + 1))) ∧
        circ_output_types c = repeat QB_T (Z.to_nat (Z.max 0 (m + 1))) ∧
        Z.of_nat (length (circ_outputs c)) = Z.max 0 (m + 1)).
Proof.
  intros Hargs Hne.
  destruct (from_coms_n_qb_spec args 0 Hne) as (r & Hr & Hle & Hub & Hwit).
  assert (Hrefs : referenced_indices args ≠ []).
  { destruct args as [|c rest]; [congruence|].
    inversion Hne as [|? ? Hc _]; subst.
    unfold referenced_indices. simpl.
    destruct (command_qubits c); [congruence|discriminate]. }
  destruct (py_max_spec _ Hrefs) as (m & _ & Hm & Hmax).
  assert (Hrm : r = Z.max 0 (m + 1)).
  { pose proof (Hub m Hm) as Hub_m.
    destruct Hwit as [->|(i & Hi & ->)]; [lia|].
    specialize (Hmax i Hi). lia. }
  subst r.
  exists m. split; [exact Hm|]. split; [exact Hmax|]. split; [exact Hr|].
  split; [intros Hm1; rewrite Hr; f_equal; lia|].
  assert (Hrun : from_coms args
                 = fst ((extend args ;;; finish) (CircBuild_init (Z.max 0 (m + 1))))).
  { unfold from_coms. rewrite Hr. reflexivity. }
  split; [exact Hrun|]. split; [apply CircBuild_init_max|].
  intros c Hc. rewrite Hrun in Hc. unfold bind in Hc.
  pose proof (extend_shape args (CircBuild_init (Z.max 0 (m + 1)))) as (Hin & Hout & Hlen).
  destruct (extend args (CircBuild_init (Z.max 0 (m + 1)))) as [[e|[]] s1]; simpl in *;
    [discriminate|].
  destruct (finish s1) as [r s2] eqn:Hfin. simpl in Hc. subst r.
  destruct (finish_circuit _ _ _ Hfin) as (-> & -> & _ & ->).
  rewrite Hin, Hout, Hlen.
  unfold Dfg_inputs, py_repeat. simpl. rewrite length_outs, repeat_length.
  repeat split. lia.
Qed.

Lemma from_coms_qubit_count_witness :
  from_coms_n_qb [mkCommand (mkH 0); mkCommand (mkCX 1 2)] 0 = inr 3 ∧
  ∃ c : Tk2Circuit,
    from_coms [mkCommand (mkH 0); mkCommand (mkCX 1 2)] = inr c ∧
    circ_input_types c = [QB_T; QB_T; QB_T] ∧
    circ_output_types c = [QB_T; QB_T; QB_T] ∧
    circ_ops c = [ (op H, [mkWire InputNode 0]);
                   (op CX, [mkWire InputNode 1; mkWire InputNode 2]) ] ∧
    circ_outputs c = [mkWire (OpNode 0) 0; mkWire (OpNode 1) 0; mkWire (OpNode 1) 1].
Proof.
  set (args := [mkCommand (mkH 0); mkCommand (mkCX 1 2)]).
  assert (Hargs : args ≠ []) by discriminate.
  assert (Hne : Forall (fun c => command_qubits c ≠ []) args)
    by (repeat constructor; discriminate).
  destruct (from_coms_qubit_count args Hargs Hne) as (m & _ & _ & Hn & _).
  assert (Hm : Z.max 0 (m + 1) = 3).
  { assert (Hcomp : from_coms_n_qb args 0 = inr 3) by reflexivity.
    rewrite Hcomp in Hn. injection Hn as Hn. lia. }
  split; [rewrite Hn, Hm; reflexivity|].
  eexists. split; [vm_compute; reflexivity|]. repeat split.
Defined.

(** C10.  With no command at all, [from_coms()] does not fault: the qubit
    count stays 0 and the result is the circuit of an empty 0-qubit builder,
    with no input, no output and no operation. *)
Theorem from_coms_no_commands :
  from_coms_n_qb [] 0 = inr 0 ∧
  from_coms [] = fst (finish (CircBuild_init 0)) ∧
  from_coms [] =
  inr {| circ_input_types := []; circ_output_types := [];
         circ_ops := []; circ_outputs := [] |}.
Proof. repeat split. Qed.

(** ** Two runs *)

(** [from_coms(H(qubit=0), CX(control=0, target=1))]: both outputs of the
    circuit come from the [CX] node, which consumes the [H] node's output. *)
Example from_coms_H_CX :
  from_coms [mkCommand (mkH 0); mkCommand (mkCX 0 1)] =
  inr {| circ_input_types := [QB_T; QB_T];
         circ_output_types := [QB_T; QB_T];
         circ_ops := [ (op H, [mkWire InputNode 0]);
                       (op CX, [mkWire (OpNode 0) 0; mkWire InputNode 1]) ];
         circ_outputs := [mkWire (OpNode 1) 0; mkWire (OpNode 1) 1] |}.
Proof. vm_compute. reflexivity. Qed.

(** A command without any index makes [from_coms] raise [ValueError], from
    [max] of an empty list. *)
Example from_coms_empty_qubits :
  from_coms [mkCommand mkNoQubits] = inl ValueError.
Proof. reflexivity. Qed.

(** * Further properties of the builder *)

(** ** Indices that Python accepts, negative ones included *)

Lemma valid_index_py_index (len : nat) (i : Z) :
  valid_index len i ↔ py_index len i ≠ None.
Proof.
  unfold valid_index. split.
  - intros Hi Hnone. apply py_index_None in Hnone. lia.
  - intros Hsome.
    destruct (Z_lt_le_dec i (- Z.of_nat len)) as [Hlo|Hlo];
      [exfalso; apply Hsome, py_index_None; lia|].
    destruct (Z_lt_le_dec i (Z.of_nat len)) as [Hhi|Hhi]; [lia|].
    exfalso. apply Hsome, py_index_None. lia.
Qed.

Lemma py_norm_in_range (len : nat) (i : Z) :
  valid_index len i → 0 <= py_norm len i < Z.of_nat len.
Proof.
  unfold valid_index, py_norm. intros Hi.
  destruct (Z.ltb_spec i 0); lia.
Qed.

Lemma py_index_norm (len : nat) (i : Z) :
  valid_index len i → py_index len (py_norm len i) = py_index len i.
Proof.
  intros Hi. rewrite (py_index_nonneg _ _ (py_norm_in_range _ _ Hi)).
  unfold valid_index in Hi. unfold py_norm.
  destruct (Z.ltb_spec i 0).
  - rewrite py_index_negative by lia. reflexivity.
  - rewrite py_index_nonneg by lia. reflexivity.
Qed.

Lemma py_norm_nonneg (len : nat) (i : Z) : 0 <= i → py_norm len i = i.
Proof. intros Hi. unfold py_norm. destruct (Z.ltb_spec i 0); [lia|reflexivity]. Qed.

Section PyListValid.
Context {A : Type}.

Lemma py_getitem_norm (l : list A) (i : Z) :
  valid_index (length l) i → py_getitem l (py_norm (length l) i) = py_getitem l i.
Proof. intros Hi. unfold py_getitem. rewrite (py_index_norm _ _ Hi). reflexivity. Qed.

Lemma py_setitem_norm (l : list A) (i : Z) (x : A) :
  valid_index (length l) i →
  py_setitem l (py_norm (length l) i) x = py_setitem l i x.
Proof. intros Hi. unfold py_setitem. rewrite (py_index_norm _ _ Hi). reflexivity. Qed.

Lemma py_getitems_norm (l : list A) (indices : list Z) :
  Forall (valid_index (length l)) indices →
  py_getitems l (map (py_norm (length l)) indices) = py_getitems l indices.
Proof.
  induction 1 as [|i rest Hi _ IH]; [reflexivity|].
  simpl. rewrite (py_getitem_norm _ _ Hi), IH. reflexivity.
Qed.

Lemma py_getitems_inr (l : list A) (indices : list Z) (xs : list A) :
  py_getitems l indices = inr xs →
  Forall (valid_index (length l)) indices ∧ length xs = length indices.
Proof.
  revert xs. induction indices as [|i rest IH]; intros xs; simpl.
  - intros [= <-]. split; [constructor|reflexivity].
  - destruct (py_getitem l i) as [e|x] eqn:Hi; [discriminate|].
    destruct (py_getitems l rest) as [e|ys]; [discriminate|].
    intros [= <-]. destruct (IH ys eq_refl) as [Hall Hlen]. split.
    + constructor; [|exact Hall]. apply valid_index_py_index. intros Hnone.
      rewrite (py_getitem_None _ _ Hnone) in Hi. discriminate.
    + simpl. rewrite Hlen. reflexivity.
Qed.

Lemma py_getitems_inl (l : list A) (indices : list Z) (e : PyError) :
  py_getitems l indices = inl e →
  e = IndexError ∧ Exists (fun i => ¬ valid_index (length l) i) indices.
Proof.
  induction indices as [|i rest IH]; simpl; [discriminate|].
  destruct (py_getitem l i) as [e'|x] eqn:Hi.
  - intros [= <-]. apply py_getitem_error in Hi. destruct Hi as [-> Hnone].
    split; [reflexivity|]. apply Exists_cons_hd.
    rewrite valid_index_py_index. intros Hc. exact (Hc Hnone).
  - destruct (py_getitems l rest) as [e'|ys]; [|discriminate].
    intros [= <-]. destruct (IH eq_refl) as [-> Hex].
    split; [reflexivity|]. apply Exists_cons_tl. exact Hex.
Qed.

End PyListValid.

Lemma for_each_qbs_set_norm (indices : list Z) :
  ∀ (ws : list Wire) (s : CircBuild),
    Forall (valid_index (length (qbs s))) indices →
    for_each (zip (map (py_norm (length (qbs s))) indices) ws)
             (fun '(i, w) => qbs_set i w) s =
    for_each (zip indices ws) (fun '(i, w) => qbs_set i w) s.
Proof.
  induction indices as [|i rest IH]; intros ws s Hall; [reflexivity|].
  inversion Hall as [|? ? Hi Hrest]; subst.
  destruct ws as [|w ws]; [reflexivity|].
  simpl. unfold bind. unfold qbs_set at 1 3.
  rewrite (py_setitem_norm _ _ _ Hi).
  unfold py_setitem. destruct (py_index (length (qbs s)) i) as [k|]; [|reflexivity].
  assert (Hlen : length (qbs {| dfg := dfg s; qbs := <[k := w]> (qbs s) |})
                 = length (qbs s)) by (simpl; apply length_insert).
  rewrite <- Hlen. apply IH. rewrite Hlen. exact Hrest.
Qed.

(** [add] at indices counted from the end is [add] at the same positions
    counted from the front. *)
Lemma add_norm (o : CustomOp) (indices : list Z) (s : CircBuild) :
  Forall (valid_index (length (qbs s))) indices →
  add o (map (py_norm (length (qbs s))) indices) s = add o indices s.
Proof.
  intros Hall. unfold add. unfold bind at 1 4.
  rewrite !comprehension_qbs_get, (py_getitems_norm _ _ Hall).
  destruct (py_getitems (qbs s) indices) as [e|wires]; [reflexivity|].
  unfold bind at 1 3. unfold dfg_add_op.
  destruct (Dfg_add_op (dfg s) o wires) as [e|[n d]]; [reflexivity|].
  rewrite length_map. unfold bind.
  rewrite (for_each_qbs_set_norm indices _ {| dfg := d; qbs := qbs s |} Hall).
  reflexivity.
Qed.

Lemma add_valid_indices (o : CustomOp) (indices : list Z) (s : CircBuild) :
  is_open s →
  Forall (valid_index (length (qbs s))) indices →
  ∃ wires,
    length wires = length indices ∧
    add o indices s =
    (inr (next_node s),
     {| dfg := dfg_appended s o wires;
        qbs := write_all (qbs s)
                 (zip (map (py_norm (length (qbs s))) indices)
                      (outs (next_node s) (length indices))) |}).
Proof.
  intros Hopen Hall.
  assert (Hin : Forall (in_bounds s) (map (py_norm (length (qbs s))) indices)).
  { apply List.Forall_forall. intros j Hj. apply in_map_iff in Hj.
    destruct Hj as (i & <- & Hi). rewrite List.Forall_forall in Hall.
    apply py_norm_in_range, Hall, Hi. }
  destruct (add_in_bounds o _ s Hopen Hin) as (wires & Hget & _ & Hadd).
  exists wires. split.
  - apply py_getitems_inr in Hget. destruct Hget as [_ ->]. apply length_map.
  - rewrite <- (add_norm o indices s Hall), Hadd, length_map. reflexivity.
Qed.

(** A fault of [add] leaves the builder as it was. *)
Lemma add_fault_state (o : CustomOp) (indices : list Z) (s s' : CircBuild) (e : PyError) :
  add o indices s = (inl e, s') →
  s' = s ∧
  ((e = IndexError ∧ Exists (fun i => ¬ valid_index (length (qbs s)) i) indices) ∨
   (e = BuildError ∧ Forall (valid_index (length (qbs s))) indices ∧
    dfg_sealed (dfg s) = true)).
Proof.
  intros Hadd.
  destruct (py_getitems (qbs s) indices) as [e'|wires] eqn:Hget.
  - rewrite (add_lookup_fault o indices s e' Hget) in Hadd.
    injection Hadd as <- <-. split; [reflexivity|]. left.
    apply py_getitems_inl in Hget. exact Hget.
  - apply py_getitems_inr in Hget. destruct Hget as [Hall _].
    destruct (dfg_sealed (dfg s)) eqn:Hsealed.
    + revert Hadd. add_lookups.
      destruct (py_getitems (qbs s) indices) as [e'|wires'] eqn:Hget'.
      * apply py_getitems_inl in Hget'. destruct Hget' as [_ Hex].
        apply List.Exists_exists in Hex. destruct Hex as (i & Hi & Hbad).
        rewrite List.Forall_forall in Hall. exfalso. exact (Hbad (Hall i Hi)).
      * unfold bind at 1. unfold dfg_add_op, Dfg_add_op. rewrite Hsealed.
        intros [= <- <-]. split; [reflexivity|]. right. auto.
    + destruct (add_valid_indices o indices s Hsealed Hall) as (ws & _ & Hok).
      rewrite Hok in Hadd. discriminate.
Qed.

(** [add] either faults and changes nothing, or runs to its end. *)
Lemma add_cases (o : CustomOp) (indices : list Z) (s : CircBuild) :
  (∃ e, add o indices s = (inl e, s)) ∨
  (is_open s ∧
   Forall (valid_index (length (qbs s))) indices ∧
   ∃ wires,
     length wires = length indices ∧
     add o indices s =
     (inr (next_node s),
      {| dfg := dfg_appended s o wires;
         qbs := write_all (qbs s)
                  (zip (map (py_norm (length (qbs s))) indices)
                       (outs (next_node s) (length indices))) |})).
Proof.
  destruct (add o indices s) as [[e|n] s'] eqn:Hadd.
  - left. exists e. destruct (add_fault_state _ _ _ _ _ Hadd) as [-> _]. reflexivity.
  - right.
    destruct (py_getitems (qbs s) indices) as [e|wires] eqn:Hget.
    { rewrite (add_lookup_fault o indices s e Hget) in Hadd. discriminate. }
    apply py_getitems_inr in Hget. destruct Hget as [Hall _].
    destruct (dfg_sealed (dfg s)) eqn:Hsealed.
    { exfalso. revert Hadd. add_lookups.
      destruct (py_getitems (qbs s) indices) as [e|ws]; [discriminate|].
      unfold bind at 1. unfold dfg_add_op, Dfg_add_op. rewrite Hsealed. discriminate. }
    destruct (add_valid_indices o indices s Hsealed Hall) as (ws & Hlen & Hok).
    split; [exact Hsealed|]. split; [exact Hall|].
    exists ws. split; [exact Hlen|]. rewrite <- Hadd. exact Hok.
Qed.

(** X1.  When [add] faults, the table is exactly what it was before the
    call: no entry has been written, not even for the indices that come
    before a bad one.  When the fault is [IndexError], the graph is
    untouched as well, [add_op] not having been reached.  The exception is
    [IndexError] or the engine's refusal. *)
Theorem add_faults_leave_table
        (o : CustomOp) (indices : list Z) (s s' : CircBuild) (e : PyError) :
  add o indices s = (inl e, s') →
  qbs s' = qbs s ∧
  (e = IndexError → s' = s) ∧
  (e = IndexError ∨ e = BuildError).
Proof.
  intros Hadd. destruct (add_fault_state _ _ _ _ _ Hadd) as [-> Hkind].
  split; [reflexivity|]. split; [reflexivity|].
  destruct Hkind as [[-> _]|[-> _]]; auto.
Qed.

Lemma add_faults_leave_table_witness :
  add (op CX) [0; 5] (CircBuild_init 2) = (inl IndexError, CircBuild_init 2) ∧
  qbs (CircBuild_init 2) = [mkWire InputNode 0; mkWire InputNode 1].
Proof.
  assert (Hadd : add (op CX) [0; 5] (CircBuild_init 2)
                 = (inl IndexError, CircBuild_init 2)) by reflexivity.
  split; [exact Hadd|].
  destruct (add_faults_leave_table (op CX) [0; 5] (CircBuild_init 2) (CircBuild_init 2)
              IndexError Hadd) as (Hq & _).
  reflexivity.
Defined.

(** X2.  In every state of the builder, [add(op, indices)] raises
    [IndexError] exactly when some index of the list is outside
    [-n <= i < n], [n] being the size of the table. *)
Theorem add_IndexError_iff (o : CustomOp) (indices : list Z) (s : CircBuild) :
  fst (add o indices s) = inl IndexError ↔
  Exists (fun i => ¬ valid_index (length (qbs s)) i) indices.
Proof.
  split.
  - destruct (add o indices s) as [[e|n] s'] eqn:Hadd; simpl; [|discriminate].
    intros [= ->]. destruct (add_fault_state _ _ _ _ _ Hadd) as [_ [[_ Hex]|[Hc _]]];
      [exact Hex|discriminate].
  - intros Hex. apply List.Exists_exists in Hex. destruct Hex as (i & Hin & Hbad).
    rewrite (add_lookup_fault o indices s IndexError); [reflexivity|].
    apply (py_getitems_out_of_range _ _ i Hin).
    destruct (py_index (length (qbs s)) i) eqn:Hi; [|reflexivity].
    exfalso. apply Hbad, valid_index_py_index. rewrite Hi. discriminate.
Qed.

(** X3.  On an open builder, with every index inside [-n <= i < n], [add]
    succeeds and does what [add] does at the same positions counted from the
    front: an index [i < 0] stands for [n + i], in the reads and in the
    writes.  The new node consumes as many wires as there are indices, and
    the table keeps its size. *)
Theorem add_counts_from_the_end (o : CustomOp) (indices : list Z) (s : CircBuild) :
  is_open s →
  Forall (valid_index (length (qbs s))) indices →
  add o indices s = add o (map (py_norm (length (qbs s))) indices) s ∧
  Forall (in_bounds s) (map (py_norm (length (qbs s))) indices) ∧
  ∃ (wires : list Wire) (s' : CircBuild),
    add o indices s = (inr (OpNode (length (dfg_ops (dfg s)))), s') ∧
    length wires = length indices ∧
    dfg_ops (dfg s') = dfg_ops (dfg s) ++ [(o, wires)] ∧
    length (qbs s') = length (qbs s).
Proof.
  intros Hopen Hall. split; [symmetry; apply add_norm; exact Hall|]. split.
  - apply List.Forall_forall. intros j Hj. apply in_map_iff in Hj.
    destruct Hj as (i & <- & Hi). rewrite List.Forall_forall in Hall.
    apply py_norm_in_range, Hall, Hi.
  - destruct (add_valid_indices o indices s Hopen Hall) as (wires & Hlen & Hadd).
    eexists wires, _. split; [exact Hadd|]. split; [exact Hlen|].
    split; [reflexivity|]. simpl. apply length_write_all.
Qed.

Lemma add_counts_from_the_end_witness :
  add (op CX) [-1; 0] (CircBuild_init 3) = add (op CX) [2; 0] (CircBuild_init 3) ∧
  qbs (snd (add (op CX) [-1; 0] (CircBuild_init 3))) =
  [mkWire (OpNode 0) 1; mkWire InputNode 1; mkWire (OpNode 0) 0].
Proof.
  assert (Hopen : is_open (CircBuild_init 3)) by reflexivity.
  assert (Hall : Forall (valid_index (length (qbs (CircBuild_init 3)))) [-1; 0]).
  { repeat constructor; simpl; lia. }
  destruct (add_counts_from_the_end (op CX) [-1; 0] (CircBuild_init 3) Hopen Hall)
    as (Hsame & _ & _).
  split; [exact Hsame|reflexivity].
Defined.

(** ** What holds from one state of the builder to the next *)

Section Preserved.
Variable R : CircBuild → CircBuild → Prop.
Hypothesis R_refl : ∀ s, R s s.
Hypothesis R_trans : ∀ s1 s2 s3, R s1 s2 → R s2 s3 → R s1 s3.

Lemma bind_preserved {A B : Type} (m : Build A) (k : A → Build B) :
  (∀ s, R s (snd (m s))) → (∀ x s, R s (snd (k x s))) →
  ∀ s, R s (snd (bind m k s)).
Proof.
  intros Hm Hk s. unfold bind. specialize (Hm s).
  destruct (m s) as [[e|x] s1]; simpl in *; [exact Hm|].
  exact (R_trans _ _ _ Hm (Hk x s1)).
Qed.

Lemma comprehension_preserved {A B : Type} (f : A → Build B) (l : list A) :
  (∀ x s, R s (snd (f x s))) → ∀ s, R s (snd (comprehension f l s)).
Proof.
  intros Hf. induction l as [|x l IH]; intros s; [apply R_refl|].
  simpl. apply bind_preserved; [apply Hf|].
  intros y s1. apply bind_preserved; [exact IH|]. intros ys s2. apply R_refl.
Qed.

Lemma for_each_preserved {A : Type} (l : list A) (body : A → Build unit) :
  (∀ x s, R s (snd (body x s))) → ∀ s, R s (snd (for_each l body s)).
Proof.
  intros Hbody. induction l as [|x l IH]; intros s; [apply R_refl|].
  simpl. apply bind_preserved; [apply Hbody|]. intros _ s1. apply IH.
Qed.

Hypothesis R_add : ∀ o indices s, R s (snd (add o indices s)).

Lemma extend_preserved (coms : list AnyCommand) (s : CircBuild) :
  R s (snd (extend coms s)).
Proof.
  unfold extend. apply for_each_preserved. intros c s1.
  apply bind_preserved; [intros s2; apply R_add|]. intros _ s2. apply R_refl.
Qed.

Lemma measure_all_preserved (s : CircBuild) : R s (snd (measure_all s)).
Proof.
  unfold measure_all. apply comprehension_preserved. intros i s1.
  apply bind_preserved; [intros s2; apply R_add|]. intros n s2. apply R_refl.
Qed.

End Preserved.

Lemma grows_refl (s : CircBuild) : grows s s.
Proof. split; [apply same_shape_refl|]. exists []. rewrite app_nil_r. reflexivity. Qed.

Lemma grows_trans (s1 s2 s3 : CircBuild) : grows s1 s2 → grows s2 s3 → grows s1 s3.
Proof.
  intros [H12 [new1 Hn1]] [H23 [new2 Hn2]]. split.
  - exact (same_shape_trans _ _ _ H12 H23).
  - exists (new1 ++ new2). rewrite Hn2, Hn1, <- app_assoc. reflexivity.
Qed.

Lemma add_grows (o : CustomOp) (indices : list Z) (s : CircBuild) :
  grows s (snd (add o indices s)).
Proof.
  split; [apply add_shape|].
  destruct (add_cases o indices s) as [[e ->]|(_ & _ & wires & _ & ->)]; simpl.
  - exists []. rewrite app_nil_r. reflexivity.
  - exists [(o, wires)]. reflexivity.
Qed.

Lemma finish_grows (s : CircBuild) : grows s (snd (finish s)).
Proof.
  unfold finish, dfg_finish, Dfg_finish.
  destruct (dfg_sealed (dfg s)); [apply grows_refl|].
  destruct (decide _); [|apply grows_refl].
  simpl. split; [repeat split|]. exists []. simpl. rewrite app_nil_r. reflexivity.
Qed.

(** X7.  Whatever a method of the builder does, and whether it returns or
    faults, the declared input and output types of the graph and the size of
    the table stay what they were, and the nodes the graph already had stay
    in place, in their order: the graph only ever gets new nodes after
    them. *)
Theorem methods_only_grow_the_graph (s : CircBuild) :
  (∀ o indices, grows s (snd (add o indices s))) ∧
  (∀ c, grows s (snd (add_command c s))) ∧
  (∀ coms, grows s (snd (extend coms s))) ∧
  grows s (snd (measure_all s)) ∧
  grows s (snd (finish s)).
Proof.
  split; [intros; apply add_grows|].
  split; [intros; apply add_grows|].
  split; [intros coms; apply (extend_preserved grows grows_refl grows_trans add_grows)|].
  split; [apply (measure_all_preserved grows grows_refl grows_trans add_grows)|].
  apply finish_grows.
Qed.

(** ** Sequences of commands *)

Lemma extend_app_eq (coms1 coms2 : list AnyCommand) (s : CircBuild) :
  extend (coms1 ++ coms2) s = (extend coms1 ;;; extend coms2) s.
Proof.
  revert s. induction coms1 as [|c coms1 IH]; intros s; [reflexivity|].
  simpl app. unfold bind. rewrite !extend_cons.
  destruct (add_command c s) as [[e|n] s1]; [reflexivity|].
  rewrite IH. reflexivity.
Qed.

(** X4.  Extending with one sequence and then with another is extending
    with the two sequences put end to end; when the first part faults, the
    second is not started. *)
Theorem extend_app (coms1 coms2 : list AnyCommand) (s : CircBuild) :
  extend (coms1 ++ coms2) s = (extend coms1 ;;; extend coms2) s ∧
  (∀ e s1, extend coms1 s = (inl e, s1) → extend (coms1 ++ coms2) s = (inl e, s1)) ∧
  (∀ s1, extend coms1 s = (inr tt, s1) → extend (coms1 ++ coms2) s = extend coms2 s1).
Proof.
  split; [apply extend_app_eq|].
  split.
  - intros e s1 Hfirst. rewrite extend_app_eq. unfold bind. rewrite Hfirst. reflexivity.
  - intros s1 Hfirst. rewrite extend_app_eq. unfold bind. rewrite Hfirst. reflexivity.
Qed.

Lemma extend_fault_inv (coms : list AnyCommand) :
  ∀ (s s' : CircBuild) (e : PyError),
    extend coms s = (inl e, s') →
    ∃ pre c post,
      coms = pre ++ c :: post ∧
      extend pre s = (inr tt, s') ∧
      add_command c s' = (inl e, s').
Proof.
  induction coms as [|c coms IH]; intros s s' e Hext; [discriminate|].
  rewrite extend_cons in Hext.
  destruct (add_command c s) as [[e1|n] s1] eqn:Hadd.
  - injection Hext as -> ->.
    destruct (add_fault_state _ _ _ _ _ Hadd) as [-> _].
    exists [], c, coms. repeat split; assumption.
  - destruct (IH _ _ _ Hext) as (pre & c' & post & -> & Hpre & Hc').
    exists (c :: pre), c', post. split; [reflexivity|]. split; [|exact Hc'].
    rewrite extend_cons, Hadd. exact Hpre.
Qed.

(** X5.  When [extend] faults, it is at the first command that cannot be
    added: the commands before it have been added and stay added, the
    failing command has written nothing into the table (and, on
    [IndexError], nothing into the graph), and the commands after it have
    not been looked at, whatever they are. *)
Theorem extend_stops_at_first_fault
        (coms : list AnyCommand) (s s' : CircBuild) (e : PyError) :
  extend coms s = (inl e, s') →
  ∃ (pre : list AnyCommand) (c : AnyCommand) (post : list AnyCommand) (s1 : CircBuild),
    coms = pre ++ c :: post ∧
    extend pre s = (inr tt, s1) ∧
    add_command c s1 = (inl e, s') ∧
    qbs s' = qbs s1 ∧
    (e = IndexError → s' = s1) ∧
    (e = IndexError ∨ e = BuildError) ∧
    ∀ post', extend (pre ++ c :: post') s = (inl e, s').
Proof.
  intros Hext. destruct (extend_fault_inv _ _ _ _ Hext) as (pre & c & post & -> & Hpre & Hc).
  exists pre, c, post, s'. split; [reflexivity|]. split; [exact Hpre|]. split; [exact Hc|].
  split; [reflexivity|]. split; [reflexivity|]. split.
  - destruct (add_fault_state _ _ _ _ _ Hc) as [_ [[-> _]|[-> _]]]; auto.
  - intros post'. rewrite extend_app_eq. unfold bind. rewrite Hpre.
    rewrite extend_cons, Hc. reflexivity.
Qed.

Lemma extend_stops_at_first_fault_witness :
  ∃ s',
    extend [mkCommand (mkH 0); mkCommand (mkCX 0 2); mkCommand (mkPauliX 1)]
           (CircBuild_init 2) = (inl IndexError, s') ∧
    extend [mkCommand (mkH 0)] (CircBuild_init 2) = (inr tt, s') ∧
    dfg_ops (dfg s') = [(op H, [mkWire InputNode 0])].
Proof.
  set (coms := [mkCommand (mkH 0); mkCommand (mkCX 0 2); mkCommand (mkPauliX 1)]).
  set (s' := snd (extend coms (CircBuild_init 2))).
  assert (Hext : extend coms (CircBuild_init 2) = (inl IndexError, s')) by reflexivity.
  destruct (extend_stops_at_first_fault coms (CircBuild_init 2) s' IndexError Hext)
    as (pre & c & post & s1 & _).
  exists s'. split; [exact Hext|]. split; reflexivity.
Defined.

Lemma extend_success_inv (coms : list AnyCommand) :
  ∀ (s s' : CircBuild),
    extend coms s = (inr tt, s') →
    Forall (fun c => Forall (valid_index (length (qbs s))) (command_qubits c)) coms ∧
    (coms = [] ∨ is_open s) ∧
    length (qbs s') = length (qbs s) ∧
    ∃ new,
      dfg_ops (dfg s') = dfg_ops (dfg s) ++ new ∧
      map fst new = map command_op coms ∧
      map (fun x => length (snd x)) new
      = map (fun c => length (command_qubits c)) coms.
Proof.
  induction coms as [|c coms IH]; intros s s' Hext.
  - injection Hext as <-. split; [constructor|]. split; [left; reflexivity|].
    split; [reflexivity|]. exists []. rewrite app_nil_r. auto.
  - rewrite extend_cons in Hext. unfold add_command in Hext.
    destruct (add_cases (command_op c) (command_qubits c) s)
      as [[e He]|(Hopen & Hall & wires & Hlen & Hadd)].
    { rewrite He in Hext. discriminate. }
    rewrite Hadd in Hext.
    destruct (IH _ _ Hext) as (Hrest & _ & Hsize & new & Hops & Hfst & Hsnd).
    simpl in Hrest, Hsize, Hops. rewrite length_write_all in Hrest, Hsize.
    split; [constructor; assumption|]. split; [right; exact Hopen|].
    split; [exact Hsize|].
    exists ((command_op c, wires) :: new). split.
    + rewrite Hops, <- app_assoc. reflexivity.
    + simpl. rewrite Hfst, Hsnd, Hlen. auto.
Qed.

Lemma extend_valid_indices (coms : list AnyCommand) :
  ∀ s : CircBuild,
    is_open s →
    Forall (fun c => Forall (valid_index (length (qbs s))) (command_qubits c)) coms →
    ∃ s', extend coms s = (inr tt, s') ∧ is_open s'.
Proof.
  induction coms as [|c coms IH]; intros s Hopen Hall.
  - exists s. split; [reflexivity|exact Hopen].
  - inversion Hall as [|? ? Hc Hrest]; subst.
    destruct (add_valid_indices (command_op c) _ s Hopen Hc) as (wires & _ & Hadd).
    rewrite extend_cons. unfold add_command. rewrite Hadd.
    apply IH; [reflexivity|]. simpl. rewrite length_write_all. exact Hrest.
Qed.

(** X6.  [extend] returns only if every index of every command lies inside
    [-n <= i < n], [n] being the size of the table: with an index outside
    that range somewhere in the sequence it never returns.  When it returns,
    the table has kept its size and the graph has, after the nodes it had,
    one new node per command, in the order of the commands, the node of a
    command carrying that command's descriptor and consuming as many wires
    as the command names indices. *)
Theorem extend_returns_only_in_range (coms : list AnyCommand) (s s' : CircBuild) :
  extend coms s = (inr tt, s') →
  Forall (fun c => Forall (valid_index (length (qbs s))) (command_qubits c)) coms ∧
  length (qbs s') = length (qbs s) ∧
  ∃ new,
    dfg_ops (dfg s') = dfg_ops (dfg s) ++ new ∧
    length new = length coms ∧
    map fst new = map command_op coms ∧
    map (fun x => length (snd x)) new
    = map (fun c => length (command_qubits c)) coms.
Proof.
  intros Hext.
  destruct (extend_success_inv _ _ _ Hext) as (Hall & _ & Hsize & new & Hops & Hfst & Hsnd).
  split; [exact Hall|]. split; [exact Hsize|].
  exists new. split; [exact Hops|]. split; [|split; assumption].
  rewrite <- (length_map fst new), Hfst. apply length_map.
Qed.

Lemma extend_returns_only_in_range_witness :
  ∃ s' new,
    extend [mkCommand (mkH (-1)); mkCommand (mkCX 1 0)] (CircBuild_init 2) = (inr tt, s') ∧
    dfg_ops (dfg s') = new ∧
    map fst new = [op H; op CX] ∧
    map (fun x => length (snd x)) new = [1%nat; 2%nat].
Proof.
  set (coms := [mkCommand (mkH (-1)); mkCommand (mkCX 1 0)]).
  set (s' := snd (extend coms (CircBuild_init 2))).
  assert (Hext : extend coms (CircBuild_init 2) = (inr tt, s')) by reflexivity.
  destruct (extend_returns_only_in_range coms (CircBuild_init 2) s' Hext)
    as (_ & _ & new & Hops & _ & Hfst & Hsnd).
  exists s', new. split; [exact Hext|]. split; [exact Hops|].
  split; [exact Hfst|exact Hsnd].
Defined.

(** ** Wires of the table: live, and each at one position only *)

Section FreshWrites.
Context {A : Type}.

Lemma elem_of_insert_inv (l : list A) (k : nat) (w x : A) :
  x ∈ <[k := w]> l → x = w ∨ x ∈ l.
Proof.
  revert k. induction l as [|y l IH]; intros k Hx; [right; exact Hx|].
  destruct k as [|k]; simpl in Hx; apply elem_of_cons in Hx.
  - destruct Hx as [->|Hx]; [left; reflexivity|right; apply elem_of_cons; auto].
  - destruct Hx as [->|Hx]; [right; apply elem_of_cons; auto|].
    destruct (IH k Hx) as [->|Hin]; [left; reflexivity|right; apply elem_of_cons; auto].
Qed.

Lemma NoDup_insert_fresh (l : list A) (k : nat) (w : A) :
  NoDup l → w ∉ l → NoDup (<[k := w]> l).
Proof.
  revert k. induction l as [|y l IH]; intros k Hnd Hw; [exact Hnd|].
  apply NoDup_cons in Hnd. destruct Hnd as [Hy Hnd].
  apply not_elem_of_cons in Hw. destruct Hw as [Hne Hw].
  destruct k as [|k]; simpl; apply NoDup_cons.
  - split; assumption.
  - split; [|apply IH; assumption].
    intros Hin. apply elem_of_insert_inv in Hin. destruct Hin as [->|Hin]; auto.
Qed.

Lemma write_all_fresh_NoDup (iws : list (Z * A)) :
  ∀ l : list A,
    NoDup l → NoDup (map snd iws) → (∀ w, w ∈ map snd iws → w ∉ l) →
    NoDup (write_all l iws).
Proof.
  induction iws as [|[i w] iws IH]; intros l Hl Hws Hfresh; [exact Hl|].
  rewrite write_all_cons. simpl in *.
  apply NoDup_cons in Hws. destruct Hws as [Hw Hws].
  apply IH; [|exact Hws|].
  - apply NoDup_insert_fresh; [exact Hl|]. apply Hfresh. apply elem_of_cons. auto.
  - intros w' Hw' Hin. apply elem_of_insert_inv in Hin. destruct Hin as [->|Hin].
    + exact (Hw Hw').
    + apply (Hfresh w'); [apply elem_of_cons; auto|exact Hin].
Qed.

Lemma zip_snd {B : Type} (l : list B) (k : list A) :
  length l = length k → map snd (zip l k) = k.
Proof.
  revert k. induction l as [|x l IH]; intros [|y k] Hlen; try discriminate; [reflexivity|].
  simpl. f_equal. apply IH. simpl in Hlen. lia.
Qed.

End FreshWrites.

Lemma NoDup_outs (n : Node) (count : nat) : NoDup (outs n count).
Proof.
  assert (Hinj : Inj eq eq (mkWire n)).
  { intros p q Heq. injection Heq as ->. reflexivity. }
  unfold outs. apply (NoDup_fmap_2 (mkWire n)). apply NoDup_seq.
Qed.

Lemma add_table_inv (o : CustomOp) (indices : list Z) (s : CircBuild) :
  table_inv s → table_inv (snd (add o indices s)).
Proof.
  intros [Hlive Hnd]. split; [apply add_keeps_table_live; exact Hlive|].
  destruct (add_cases o indices s) as [[e ->]|(_ & _ & wires & _ & ->)]; [exact Hnd|].
  simpl. apply write_all_fresh_NoDup; [exact Hnd| |];
    rewrite zip_snd by (rewrite length_map, length_outs; reflexivity).
  - apply NoDup_outs.
  - intros w Hw Hin. unfold outs in Hw. apply list_elem_of_fmap in Hw.
    destruct Hw as (p & -> & _).
    apply (wire_live_not_next s (mkWire (next_node s) p) p Hlive);
      [apply list_elem_of_In; exact Hin|reflexivity].
Qed.

Lemma CircBuild_init_inv (n : Z) : table_inv (CircBuild_init n).
Proof. split; [apply CircBuild_init_live|apply NoDup_outs]. Qed.

(** X8.  A builder as [CircBuild(n)] makes it has a table whose entries are
    wires of nodes of its graph, no wire standing at two positions; and
    [add], [add_command], [extend] and [measure_all] keep it so, whether
    they return or fault.  So no output wire is ever listed for two
    qubits. *)
Theorem table_wires_stay_distinct :
  (∀ n : Z, table_inv (CircBuild_init n)) ∧
  (∀ s : CircBuild,
      table_inv s →
      (∀ o indices, table_inv (snd (add o indices s))) ∧
      (∀ c, table_inv (snd (add_command c s))) ∧
      (∀ coms, table_inv (snd (extend coms s))) ∧
      table_inv (snd (measure_all s))).
Proof.
  split; [apply CircBuild_init_inv|]. intros s Hinv.
  pose (R := fun s1 s2 : CircBuild => table_inv s1 → table_inv s2).
  assert (R_refl : ∀ s1, R s1 s1) by (intros s1 H1; exact H1).
  assert (R_trans : ∀ s1 s2 s3, R s1 s2 → R s2 s3 → R s1 s3)
    by (intros s1 s2 s3 H12 H23 H1; exact (H23 (H12 H1))).
  assert (R_add : ∀ o indices s1, R s1 (snd (add o indices s1)))
    by (intros o indices s1 H1; apply add_table_inv; exact H1).
  split; [intros; apply add_table_inv; exact Hinv|].
  split; [intros; apply add_table_inv; exact Hinv|].
  split.
  - intros coms. exact (extend_preserved R R_refl R_trans R_add coms s Hinv).
  - exact (measure_all_preserved R R_refl R_trans R_add s Hinv).
Qed.

Lemma table_wires_stay_distinct_witness :
  table_inv (CircBuild_init 2) ∧
  table_inv (snd (extend [mkCommand (mkH 0); mkCommand (mkCX 1 0)] (CircBuild_init 2))) ∧
  qbs (snd (extend [mkCommand (mkH 0); mkCommand (mkCX 1 0)] (CircBuild_init 2)))
  = [mkWire (OpNode 1) 1; mkWire (OpNode 1) 0].
Proof.
  destruct table_wires_stay_distinct as [Hinit Hkeep].
  split; [apply Hinit|]. split; [|reflexivity].
  destruct (Hkeep (CircBuild_init 2) (Hinit 2)) as (_ & _ & Hext & _).
  apply Hext.
Defined.

(** ** The types of the table wires *)

Lemma wire_type_appended (s : CircBuild) (o : CustomOp) (wires : list Wire)
      (w : Wire) (t : HugrType.t) :
  wire_type (dfg s) w = Some t → wire_type (dfg_appended s o wires) w = Some t.
Proof.
  unfold wire_type. simpl. destruct (wire_node w) as [|k]; [auto|].
  destruct (dfg_ops (dfg s) !! k) as [[o' ws']|] eqn:Hk; [|discriminate].
  rewrite (lookup_app_l_Some _ _ _ _ Hk). auto.
Qed.

Lemma wire_type_new (s : CircBuild) (o : CustomOp) (wires : list Wire) (p : nat) :
  wire_type (dfg_appended s o wires) (mkWire (next_node s) p) = output_types o !! p.
Proof.
  unfold wire_type, next_node. simpl.
  rewrite list_lookup_middle by reflexivity. reflexivity.
Qed.

Lemma Forall_write_all {A : Type} (P : A → Prop) (iws : list (Z * A)) :
  ∀ l : list A,
    Forall P l → Forall (fun iw => P (snd iw)) iws → Forall P (write_all l iws).
Proof.
  induction iws as [|iw iws IH]; intros l Hl Hiws; [exact Hl|].
  inversion Hiws as [|? ? Hw Hrest]; subst.
  rewrite write_all_cons. apply IH; [|exact Hrest].
  apply Forall_insert; assumption.
Qed.

Lemma zip_snd_In {A B : Type} (l : list A) (k : list B) (p : A * B) :
  In p (zip l k) → In (snd p) k.
Proof.
  revert k. induction l as [|x l IH]; intros [|y k] Hin; simpl in *; try tauto.
  destruct Hin as [<-|Hin]; [left; reflexivity|right; eapply IH; eassumption].
Qed.

Lemma add_table_qubits (o : CustomOp) (indices : list Z) (s : CircBuild) :
  table_qubits s →
  (∀ k, (k < length indices)%nat → output_types o !! k = Some QB_T) →
  table_qubits (snd (add o indices s)).
Proof.
  intros Hq Hout.
  destruct (add_cases o indices s) as [[e ->]|(_ & _ & wires & _ & ->)]; [exact Hq|].
  unfold table_qubits. simpl. apply Forall_write_all.
  - eapply List.Forall_impl; [|exact Hq]. intros w Hw. apply wire_type_appended, Hw.
  - apply List.Forall_forall. intros iw Hin. apply zip_snd_In in Hin.
    unfold outs in Hin. apply in_map_iff in Hin. destruct Hin as (p & <- & Hp).
    apply in_seq in Hp. rewrite wire_type_new. apply Hout. lia.
Qed.

Lemma command_op_qubit_outputs (c : AnyCommand) (k : nat) :
  (length (command_qubits c) <= Z.to_nat (command_n_qb c))%nat →
  (k < length (command_qubits c))%nat →
  output_types (command_op c) !! k = Some QB_T.
Proof.
  intros Hle Hk. unfold command_op, op, py_repeat. simpl.
  rewrite lookup_app_l by (rewrite repeat_length; unfold command_n_qb in Hle; lia).
  apply lookup_repeat. unfold command_n_qb in Hle. lia.
Qed.

Lemma extend_table_qubits (coms : list AnyCommand) :
  ∀ s : CircBuild,
    table_qubits s →
    Forall (fun c => (length (command_qubits c) <= Z.to_nat (command_n_qb c))%nat) coms →
    table_qubits (snd (extend coms s)).
Proof.
  induction coms as [|c coms IH]; intros s Hq Hall; [exact Hq|].
  inversion Hall as [|? ? Hc Hrest]; subst.
  rewrite extend_cons. unfold add_command.
  pose proof (add_table_qubits (command_op c) (command_qubits c) s Hq
                (fun k Hk => command_op_qubit_outputs c k Hc Hk)) as Hstep.
  destruct (add (command_op c) (command_qubits c) s) as [[e|n] s1]; simpl in *;
    [exact Hstep|exact (IH s1 Hstep Hrest)].
Qed.

Lemma CircBuild_init_qubits (n : Z) : table_qubits (CircBuild_init n).
Proof.
  unfold table_qubits, CircBuild_init, Dfg_inputs, Dfg_new, py_repeat. simpl.
  rewrite repeat_length. apply List.Forall_forall. intros w Hw.
  unfold outs in Hw. apply in_map_iff in Hw. destruct Hw as (p & <- & Hp).
  apply in_seq in Hp. unfold wire_type. simpl. apply lookup_repeat. lia.
Qed.

Lemma table_qubits_well_typed (s : CircBuild) :
  table_qubits s →
  dfg_output_types (dfg s) = repeat QB_T (length (qbs s)) →
  outputs_well_typed s.
Proof.
  unfold table_qubits, outputs_well_typed. intros Hq ->.
  induction Hq as [|w l Hw _ IH]; [reflexivity|].
  simpl. rewrite Hw, IH. reflexivity.
Qed.

Lemma finish_open_typed (s : CircBuild) :
  is_open s → outputs_well_typed s →
  finish s =
  (inr {| circ_input_types := dfg_input_types (dfg s);
          circ_output_types := dfg_output_types (dfg s);
          circ_ops := dfg_ops (dfg s);
          circ_outputs := qbs s |},
   {| dfg := {| dfg_input_types := dfg_input_types (dfg s);
                dfg_output_types := dfg_output_types (dfg s);
                dfg_ops := dfg_ops (dfg s);
                dfg_sealed := true |};
      qbs := qbs s |}).
Proof.
  intros Hopen Htyped. unfold finish, dfg_finish, Dfg_finish. rewrite Hopen.
  destruct (decide _) as [_|Hno]; [reflexivity|contradiction].
Qed.

(** X9.  When every table entry carries the qubit type, it still does after
    [add_command] of a command that names no more indices than its type
    declares qubits ([len(qubits()) <= n_qb]), and after [extend] with such
    commands, whether they return or fault; and the table that
    [CircBuild(n)] starts from is such a table. *)
Theorem commands_keep_qubit_wires (s : CircBuild) (coms : list AnyCommand) :
  table_qubits s →
  Forall (fun c => (length (command_qubits c) <= Z.to_nat (command_n_qb c))%nat) coms →
  table_qubits (snd (extend coms s)) ∧
  Forall (fun c => table_qubits (snd (add_command c s))) coms ∧
  (∀ n : Z, table_qubits (CircBuild_init n)).
Proof.
  intros Hq Hall. split; [apply extend_table_qubits; assumption|].
  split; [|apply CircBuild_init_qubits].
  eapply List.Forall_impl; [|exact Hall]. intros c Hc. unfold add_command.
  apply add_table_qubits; [exact Hq|]. intros k Hk.
  apply command_op_qubit_outputs; assumption.
Qed.

Lemma commands_keep_qubit_wires_witness :
  table_qubits (snd (extend [mkCommand (mkCX 1 0); mkCommand (mkPauliZ 1)]
                            (CircBuild_init 2))).
Proof.
  assert (Hq : table_qubits (CircBuild_init 2)) by (repeat constructor).
  assert (Hall : Forall (fun c => (length (command_qubits c)
                                   <= Z.to_nat (command_n_qb c))%nat)
                        [mkCommand (mkCX 1 0); mkCommand (mkPauliZ 1)]).
  { repeat constructor; simpl; lia. }
  exact (proj1 (commands_keep_qubit_wires (CircBuild_init 2) _ Hq Hall)).
Defined.

(** ** [from_coms]: when it returns and how it faults *)

Lemma from_coms_n_qb_fails (args : list AnyCommand) (acc : Z) :
  Exists (fun c => command_qubits c = []) args →
  from_coms_n_qb args acc = inl ValueError.
Proof.
  intros Hex. revert acc. induction Hex as [c rest Hc|c rest _ IH]; intros acc; simpl.
  - rewrite Hc. reflexivity.
  - destruct (command_qubits c) as [|i l]; [reflexivity|]. simpl. apply IH.
Qed.

Lemma from_coms_n_qb_error (args : list AnyCommand) :
  ∀ (acc : Z) (e : PyError),
    from_coms_n_qb args acc = inl e →
    e = ValueError ∧ Exists (fun c => command_qubits c = []) args.
Proof.
  induction args as [|c rest IH]; intros acc e; simpl; [discriminate|].
  destruct (command_qubits c) as [|i l] eqn:Hc; simpl.
  - intros [= <-]. split; [reflexivity|]. apply Exists_cons_hd. exact Hc.
  - intros Hrest. destruct (IH _ _ Hrest) as [-> Hex].
    split; [reflexivity|]. apply Exists_cons_tl. exact Hex.
Qed.

Lemma finish_error (s s' : CircBuild) (e : PyError) :
  finish s = (inl e, s') → e = BuildError ∧ s' = s.
Proof.
  unfold finish, dfg_finish, Dfg_finish.
  destruct (dfg_sealed (dfg s)); [intros [= <- <-]; auto|].
  destruct (decide _); [discriminate|]. intros [= <- <-]. auto.
Qed.

Lemma extend_error (coms : list AnyCommand) (s s' : CircBuild) (e : PyError) :
  extend coms s = (inl e, s') → e = IndexError ∨ e = BuildError.
Proof.
  intros Hext. destruct (extend_fault_inv _ _ _ _ Hext) as (pre & c & post & _ & _ & Hc).
  destruct (add_fault_state _ _ _ _ _ Hc) as [_ [[-> _]|[-> _]]]; auto.
Qed.

(** X11.  [from_coms] raises [ValueError] exactly when some command names no
    qubit at all ([qubits()] is empty); it is raised by [max] while the
    qubit count is computed, before any builder exists, so whatever the
    other commands are. *)
Theorem from_coms_ValueError_iff (args : list AnyCommand) :
  from_coms args = inl ValueError ↔
  Exists (fun c => command_qubits c = []) args.
Proof.
  unfold from_coms. split.
  - destruct (from_coms_n_qb args 0) as [e|n] eqn:Hn.
    + intros _. apply from_coms_n_qb_error in Hn. tauto.
    + unfold bind.
      destruct (extend args (CircBuild_init n)) as [[e|[]] s1] eqn:Hext; simpl.
      * intros [= ->]. apply extend_error in Hext. destruct Hext; discriminate.
      * destruct (finish s1) as [[e|c] s2] eqn:Hfin; simpl; [|discriminate].
        intros [= ->]. apply finish_error in Hfin. destruct Hfin; discriminate.
  - intros Hex. rewrite (from_coms_n_qb_fails args 0 Hex). reflexivity.
Qed.

Lemma from_coms_builds (args : list AnyCommand) :
  Forall (fun c => command_qubits c ≠ []) args →
  Forall (fun i => 0 <= i) (referenced_indices args) →
  ∃ (n : Z) (s' : CircBuild),
    0 <= n ∧
    from_coms_n_qb args 0 = inr n ∧
    extend args (CircBuild_init n) = (inr tt, s') ∧
    is_open s' ∧
    from_coms args = fst (finish s').
Proof.
  intros Hne Hpos.
  destruct (from_coms_n_qb_spec args 0 Hne) as (n & Hn & Hle & Hub & _).
  assert (Hvalid : Forall (fun c => Forall (valid_index (length (qbs (CircBuild_init n))))
                                           (command_qubits c)) args).
  { apply List.Forall_forall. intros c Hc. apply List.Forall_forall. intros i Hi.
    assert (Href : In i (referenced_indices args)).
    { unfold referenced_indices. apply in_concat. exists (command_qubits c).
      split; [apply in_map; exact Hc|exact Hi]. }
    rewrite List.Forall_forall in Hpos. specialize (Hpos i Href). specialize (Hub i Href).
    unfold valid_index, CircBuild_init, Dfg_inputs, py_repeat. simpl.
    rewrite length_outs, repeat_length. lia. }
  destruct (extend_valid_indices args (CircBuild_init n) eq_refl Hvalid)
    as (s' & Hext & Hopen).
  exists n, s'. split; [exact Hle|]. split; [exact Hn|]. split; [exact Hext|].
  split; [exact Hopen|].
  unfold from_coms. rewrite Hn. unfold bind. rewrite Hext. reflexivity.
Qed.

(** X14.  When every command names at least one index and no index is
    negative, the qubit count that [from_coms] infers is larger than every
    named index, so every index of every command is a position of the table
    that [from_coms] starts from; [from_coms] then raises neither
    [ValueError] nor [IndexError]. *)
Theorem from_coms_count_suffices (args : list AnyCommand) :
  Forall (fun c => command_qubits c ≠ []) args →
  Forall (fun i => 0 <= i) (referenced_indices args) →
  ∃ n : Z,
    from_coms_n_qb args 0 = inr n ∧
    Forall (fun i => i < n) (referenced_indices args) ∧
    Forall (fun c => Forall (in_bounds (CircBuild_init n)) (command_qubits c)) args ∧
    from_coms args ≠ inl IndexError ∧
    from_coms args ≠ inl ValueError.
Proof.
  intros Hne Hpos.
  destruct (from_coms_builds args Hne Hpos) as (n & s' & Hn0 & Hn & Hext & _ & Hrun).
  assert (Hlt : Forall (fun i => i < n) (referenced_indices args)).
  { destruct (from_coms_n_qb_spec args 0 Hne) as (n' & Hn' & _ & Hub & _).
    rewrite Hn in Hn'. injection Hn' as <-.
    apply List.Forall_forall. intros i Hi. specialize (Hub i Hi). lia. }
  exists n. split; [exact Hn|]. split; [exact Hlt|]. split.
  { apply List.Forall_forall. intros c Hc. apply List.Forall_forall. intros i Hi.
    assert (Href : In i (referenced_indices args)).
    { unfold referenced_indices. apply in_concat. exists (command_qubits c).
      split; [apply in_map; exact Hc|exact Hi]. }
    rewrite List.Forall_forall in Hpos, Hlt.
    specialize (Hpos i Href). specialize (Hlt i Href).
    unfold in_bounds, CircBuild_init, Dfg_inputs, py_repeat. simpl.
    rewrite length_outs, repeat_length. lia. }
  rewrite Hrun. destruct (finish s') as [[e|c] s2] eqn:Hfin; simpl.
  - apply finish_error in Hfin. destruct Hfin as [-> _]. split; discriminate.
  - split; discriminate.
Qed.

Lemma from_coms_count_suffices_witness :
  from_coms_n_qb [mkCommand (mkCX 3 1); mkCommand (mkH 2)] 0 = inr 4 ∧
  from_coms [mkCommand (mkCX 3 1); mkCommand (mkH 2)] ≠ inl IndexError.
Proof.
  set (args := [mkCommand (mkCX 3 1); mkCommand (mkH 2)]).
  assert (Hne : Forall (fun c => command_qubits c ≠ []) args)
    by (repeat constructor; discriminate).
  assert (Hpos : Forall (fun i => 0 <= i) (referenced_indices args))
    by (repeat constructor; simpl; lia).
  destruct (from_coms_count_suffices args Hne Hpos) as (n & Hn & _ & _ & Hno & _).
  split; [reflexivity|exact Hno].
Defined.

Lemma from_coms_n_qb_inr (args : list AnyCommand) :
  ∀ acc r : Z,
    from_coms_n_qb args acc = inr r →
    Forall (fun c => command_qubits c ≠ []) args.
Proof.
  induction args as [|c rest IH]; intros acc r; simpl; [constructor|].
  destruct (command_qubits c) as [|i l] eqn:Hc; simpl; [discriminate|].
  intros Hrest. constructor; [rewrite Hc; discriminate|exact (IH _ _ Hrest)].
Qed.

(** X10.  A circuit that [from_coms] returns is declared with as many qubit
    inputs and qubit outputs as the inferred qubit count [n], has one output
    wire per qubit, and holds one operation per command, in the order of the
    commands, the operation of a command carrying that command's descriptor
    and consuming as many wires as the command names indices.  And
    [from_coms] returns only if every command names at least one index and
    every named index lies inside [-n <= i < n]. *)
Theorem from_coms_returned_circuit (args : list AnyCommand) (c : Tk2Circuit) :
  from_coms args = inr c →
  ∃ n : Z,
    from_coms_n_qb args 0 = inr n ∧
    0 <= n ∧
    Forall (fun c => command_qubits c ≠ []) args ∧
    Forall (fun i => - n <= i < n) (referenced_indices args) ∧
    circ_input_types c = repeat QB_T (Z.to_nat n) ∧
    circ_output_types c = repeat QB_T (Z.to_nat n) ∧
    length (circ_outputs c) = Z.to_nat n ∧
    length (circ_ops c) = length args ∧
    map fst (circ_ops c) = map command_op args ∧
    map (fun x => length (snd x)) (circ_ops c)
    = map (fun c => length (command_qubits c)) args.
Proof.
  unfold from_coms. destruct (from_coms_n_qb args 0) as [e|n] eqn:Hn; [discriminate|].
  unfold bind.
  destruct (extend args (CircBuild_init n)) as [[e|[]] s1] eqn:Hext; simpl; [discriminate|].
  destruct (finish s1) as [[e|c'] s2] eqn:Hfin; simpl; [discriminate|].
  intros [= ->].
  pose proof (from_coms_n_qb_inr _ _ _ Hn) as Hne.
  destruct (from_coms_n_qb_spec args 0 Hne) as (n' & Hn' & Hn0 & _).
  rewrite Hn in Hn'. injection Hn' as <-.
  destruct (extend_success_inv _ _ _ Hext) as (Hall & _ & Hsize & new & Hops & Hfst & Hsnd).
  pose proof (extend_shape args (CircBuild_init n)) as (Hin & Hout & _).
  rewrite Hext in Hin, Hout. simpl in Hin, Hout, Hops, Hsize, Hall.
  unfold Dfg_inputs, py_repeat in Hsize, Hall. simpl in Hsize, Hall.
  rewrite length_outs, repeat_length in Hsize, Hall.
  destruct (finish_circuit _ _ _ Hfin) as (Hci & Hco & Hcops & Hcouts).
  exists n. split; [reflexivity|]. split; [exact Hn0|]. split; [exact Hne|]. split.
  { apply List.Forall_forall. intros i Hi. unfold referenced_indices in Hi.
    apply in_concat in Hi. destruct Hi as (l & Hl & Hi).
    apply in_map_iff in Hl. destruct Hl as (cmd & <- & Hcmd).
    rewrite List.Forall_forall in Hall. specialize (Hall cmd Hcmd).
    rewrite List.Forall_forall in Hall. specialize (Hall i Hi).
    unfold valid_index in Hall. lia. }
  rewrite Hci, Hco, Hcops, Hcouts, Hin, Hout, Hsize, Hops.
  split; [reflexivity|]. split; [reflexivity|]. split; [reflexivity|].
  split; [|split; assumption].
  rewrite <- (length_map fst new), Hfst. apply length_map.
Qed.

Lemma from_coms_returned_circuit_witness :
  ∃ c : Tk2Circuit,
    from_coms [mkCommand (mkH 1); mkCommand (mkCX 1 0); mkCommand (mkPauliY 0)] = inr c ∧
    map fst (circ_ops c) = [op H; op CX; op PauliY] ∧
    circ_input_types c = [QB_T; QB_T].
Proof.
  set (args := [mkCommand (mkH 1); mkCommand (mkCX 1 0); mkCommand (mkPauliY 0)]).
  set (c := {| circ_input_types := [QB_T; QB_T];
               circ_output_types := [QB_T; QB_T];
               circ_ops := [ (op H, [mkWire InputNode 1]);
                             (op CX, [mkWire (OpNode 0) 0; mkWire InputNode 0]);
                             (op PauliY, [mkWire (OpNode 1) 1]) ];
               circ_outputs := [mkWire (OpNode 2) 0; mkWire (OpNode 1) 0] |}).
  assert (Hrun : from_coms args = inr c) by (vm_compute; reflexivity).
  destruct (from_coms_returned_circuit args c Hrun)
    as (n & _ & _ & _ & _ & _ & _ & _ & _ & Hops & _).
  exists c. split; [exact Hrun|]. split; [exact Hops|reflexivity].
Defined.

(** ** Operations whose outputs do not match the indices *)

Lemma map_Some_no_None {A B : Type} (f : A → option B) (l : list A) (l' : list B) (x : A) :
  In x l → f x = None → map f l ≠ map Some l'.
Proof.
  intros Hin Hx Heq. apply (in_map f) in Hin. rewrite Heq, Hx in Hin.
  apply in_map_iff in Hin. destruct Hin as (y & Hy & _). discriminate.
Qed.

(** X12.  [add] takes as many output wires of the new node as there are
    indices, without looking at the outputs the operation declares.  With an
    operation that declares fewer outputs than there are indices (such as
    [QFree] on one index), [add] still returns, and the table then holds a
    wire of the new node at a port the operation does not have; [finish]
    refuses such a table. *)
Theorem add_with_too_few_outputs (o : CustomOp) (indices : list Z) (s : CircBuild) :
  is_open s →
  Forall (valid_index (length (qbs s))) indices →
  (length (output_types o) < length indices)%nat →
  ∃ (s' : CircBuild) (w : Wire),
    add o indices s = (inr (OpNode (length (dfg_ops (dfg s)))), s') ∧
    In w (qbs s') ∧
    w = mkWire (OpNode (length (dfg_ops (dfg s)))) (length indices - 1) ∧
    wire_type (dfg s') w = None ∧
    finish s' = (inl BuildError, s').
Proof.
  intros Hopen Hall Hfew.
  destruct (add_valid_indices o indices s Hopen Hall) as (wires & _ & Hadd).
  set (idx := map (py_norm (length (qbs s))) indices) in *.
  assert (Hin : Forall (in_bounds s) idx).
  { apply List.Forall_forall. intros j Hj. apply in_map_iff in Hj.
    destruct Hj as (i & <- & Hi). rewrite List.Forall_forall in Hall.
    apply py_norm_in_range, Hall, Hi. }
  assert (Hlen : length idx = length indices) by apply length_map.
  destruct (lookup_lt_is_Some_2 idx (length indices - 1)) as [i Hi]; [lia|].
  pose proof (add_table_last s idx (next_node s) _ i Hin Hi) as Hlast.
  rewrite Hlen in Hlast.
  assert (Hw : write_all (qbs s) (zip idx (outs (next_node s) (length indices)))
                 !! Z.to_nat i = Some (mkWire (next_node s) (length indices - 1))).
  { apply Hlast. intros k' Hlt Hk'. apply lookup_lt_Some in Hk'. lia. }
  eexists _, (mkWire (next_node s) (length indices - 1)).
  split; [exact Hadd|]. simpl.
  assert (Hmem : In (mkWire (next_node s) (length indices - 1))
                    (write_all (qbs s) (zip idx (outs (next_node s) (length indices))))).
  { apply list_elem_of_In, list_elem_of_lookup. eauto. }
  assert (Hnone : wire_type (dfg_appended s o wires)
                    (mkWire (next_node s) (length indices - 1)) = None).
  { rewrite wire_type_new. apply lookup_ge_None_2. lia. }
  split; [exact Hmem|]. split; [reflexivity|]. split; [exact Hnone|].
  unfold finish, dfg_finish, Dfg_finish. simpl.
  destruct (decide _) as [Heq|_]; [|reflexivity].
  exfalso. exact (map_Some_no_None _ _ _ _ Hmem Hnone Heq).
Qed.

Lemma add_with_too_few_outputs_witness :
  ∃ s',
    add QFree [1] (CircBuild_init 2) = (inr (OpNode 0), s') ∧
    qbs s' = [mkWire InputNode 0; mkWire (OpNode 0) 0] ∧
    finish s' = (inl BuildError, s').
Proof.
  assert (Hopen : is_open (CircBuild_init 2)) by reflexivity.
  assert (Hall : Forall (valid_index (length (qbs (CircBuild_init 2)))) [1]).
  { repeat constructor; simpl; lia. }
  assert (Hfew : (length (output_types QFree) < length [1])%nat) by (simpl; lia).
  destruct (add_with_too_few_outputs QFree [1] (CircBuild_init 2) Hopen Hall Hfew)
    as (s' & w & Hadd & _ & _ & _ & Hfin).
  exists s'. split; [exact Hadd|]. split; [|exact Hfin].
  vm_compute in Hadd. injection Hadd as <-. reflexivity.
Defined.

(** ** [measure_all] and [finish] together *)

(** X13.  On an open builder declared with one qubit output per table entry
    and whose table wires are qubits, [measure_all()] followed by [finish()]
    returns a circuit.  Its operations are those the graph had, followed by
    one [Measure] per qubit in index order; its outputs are the qubit
    outputs of the measure nodes; and none of the bit wires that
    [measure_all] returned is an output of the circuit. *)
Theorem measure_all_then_finish (s : CircBuild) :
  is_open s →
  table_qubits s →
  dfg_output_types (dfg s) = repeat QB_T (length (qbs s)) →
  ∃ (results : list Wire) (s1 s2 : CircBuild) (c : Tk2Circuit),
    measure_all s = (inr results, s1) ∧
    finish s1 = (inr c, s2) ∧
    (measure_all ;;; finish) s = (inr c, s2) ∧
    circ_ops c = dfg_ops (dfg s) ++ map (fun w => (Measure, [w])) (qbs s) ∧
    circ_outputs c = map (fun k => mkWire (OpNode (length (dfg_ops (dfg s)) + k)) 0)
                         (seq 0 (length (qbs s))) ∧
    length results = length (qbs s) ∧
    (∀ w, In w results → ¬ In w (circ_outputs c)).
Proof.
  intros Hopen _ Hdecl.
  destruct (measure_loop (qbs s) [] s Hopen eq_refl)
    as (s1 & Hrun & Hq & Hops & _ & Hout & Hopen1).
  simpl in Hrun, Hq.
  assert (Htyped : outputs_well_typed s1).
  { apply table_qubits_well_typed.
    - unfold table_qubits. rewrite Hq. apply List.Forall_forall. intros w Hw.
      apply in_map_iff in Hw. destruct Hw as (k & <- & Hk). apply in_seq in Hk.
      destruct (lookup_lt_is_Some_2 (qbs s) k) as [w Hw]; [lia|].
      unfold wire_type. simpl. rewrite Hops, lookup_app_r by lia.
      replace (length (dfg_ops (dfg s)) + k - length (dfg_ops (dfg s)))%nat with k by lia.
      rewrite list_lookup_fmap, Hw. reflexivity.
    - rewrite Hout, Hdecl, Hq, length_map, length_seq. reflexivity. }
  pose proof (finish_open_typed s1 Hopen1 Htyped) as Hfin.
  eexists _, s1, _, _. split; [exact Hrun|]. split; [exact Hfin|].
  split; [unfold bind; change (measure_all s) with
            (comprehension
               (fun i => n <- add Measure [i] ;; lift (py_getitem (outs n 2) 1))
               (range (length (qbs s))) s); unfold range; rewrite Hrun; exact Hfin|].
  simpl. split; [exact Hops|]. split; [exact Hq|].
  split; [rewrite length_map, length_seq; reflexivity|].
  intros w Hres Htab. rewrite Hq in Htab.
  apply in_map_iff in Hres. destruct Hres as (k & <- & _).
  apply in_map_iff in Htab. destruct Htab as (k' & Heq & _). discriminate.
Qed.

Lemma measure_all_then_finish_witness :
  ∃ (results : list Wire) (s2 : CircBuild) (c : Tk2Circuit),
    (measure_all ;;; finish) (CircBuild_init 2) = (inr c, s2) ∧
    fst (measure_all (CircBuild_init 2)) = inr results ∧
    results = [mkWire (OpNode 0) 1; mkWire (OpNode 1) 1] ∧
    circ_outputs c = [mkWire (OpNode 0) 0; mkWire (OpNode 1) 0].
Proof.
  assert (Hopen : is_open (CircBuild_init 2)) by reflexivity.
  assert (Hq : table_qubits (CircBuild_init 2)) by (repeat constructor).
  assert (Hdecl : dfg_output_types (dfg (CircBuild_init 2))
                  = repeat QB_T (length (qbs (CircBuild_init 2)))) by reflexivity.
  destruct (measure_all_then_finish (CircBuild_init 2) Hopen Hq Hdecl)
    as (results & s1 & s2 & c & Hrun & _ & Hboth & _ & Houts & _).
  exists results, s2, c. split; [exact Hboth|]. split; [rewrite Hrun; reflexivity|].
  split; [|rewrite Houts; reflexivity].
  vm_compute in Hrun. injection Hrun as <- _. reflexivity.
Defined.
